(** * angrop: [rop_utils.py]

    A shallow embedding of the register-dependency / controllability helpers
    and of the single-step driver of [src/angrop/rop_utils.py], together with
    the properties the design document states about them.

    Python integers are [Z]; bit widths and word counts (always natural
    numbers in the engine) are [N]; dictionaries are [gmap]; sets are [gset];
    mutable state objects live in a heap and are passed around by reference. *)

From Stdlib Require Import ZArith Ascii String List Lia.
From stdpp Require Import base option list gmap strings pretty.
From Equations Require Import Equations.

#[local] Set Warnings "-clear-no-such-hyp".

Local Open Scope Z_scope.

(** ** Python string primitives used by the source *)

Module PyStr.

(** [s.startswith(pre)] *)
Definition startswith (s pre : string) : bool := String.prefix pre s.

(** [s[n:]] for [n >= 0] *)
Fixpoint slice_from (n : nat) (s : string) : string :=
  match n, s with
  | O, _ => s
  | S _, EmptyString => EmptyString
  | S n', String _ s' => slice_from n' s'
  end.

(** [s.split(sep)[0]] for a one-character separator: everything before the
    first occurrence of [sep], or the whole of [s] when there is none. *)
Fixpoint split_head (sep : ascii) (s : string) : string :=
  match s with
  | EmptyString => EmptyString
  | String c s' =>
      if Ascii.eqb c sep then EmptyString else String c (split_head sep s')
  end.

(** [s * n] *)
Fixpoint repeat (s : string) (n : nat) : string :=
  match n with
  | O => EmptyString
  | S n' => s +:+ repeat s n'
  end.

(** [int(s, 2)] on a string of binary digits; [None] stands for the
    [ValueError] Python raises on any other character or on the empty
    string. *)
Fixpoint int2_acc (acc : Z) (s : string) : option Z :=
  match s with
  | EmptyString => Some acc
  | String "0"%char s' => int2_acc (2 * acc) s'
  | String "1"%char s' => int2_acc (2 * acc + 1) s'
  | String _ _ => None
  end.

Definition int2 (s : string) : option Z :=
  match s with
  | EmptyString => None
  | _ => int2_acc 0 s
  end.

(** [str(z)] for an integer *)
Definition str (z : Z) : string := pretty z.

End PyStr.

(** ** Exceptions and results *)

Inductive exn : Type :=
| RegNotFoundException (msg : string)     (* errors.RegNotFoundException *)
| RopException (msg : string)             (* errors.RopException *)
| UnsupportedSyscallError                 (* simuvex.UnsupportedSyscallError *)
| IndexError                              (* list index out of range *)
| KeyError (key : string)                 (* unknown register name *)
| ValueError                              (* int() on a malformed literal *)
| RecursionDepthExceeded                  (* interpreter recursion limit *)
| InvalidReference.                       (* no Python counterpart: a name always
                                             refers to a live object *)

Inductive result (A : Type) : Type :=
| Ok (a : A)
| Raise (e : exn).
Arguments Ok {A} a.
Arguments Raise {A} e.

(** ** Architecture descriptor *)

Record Arch : Type := mkArch {
  bits : N;                               (* arch.bits: word width in bits *)
  register_names : gmap Z string          (* arch.register_names: offset -> name *)
}.

(** [arch.bits/8]: integer division (the module is Python 2 code). *)
Definition word_bytes (arch : Arch) : Z := Z.of_N (bits arch) / 8.

(** ** Register Resolver: [get_reg_name] *)

(** The guard of the [while] loop at line 99. *)
Definition scan_guard (arch : Arch) (original_offset reg_offset : Z) : bool :=
  (0 <=? reg_offset) && (original_offset - word_bytes arch <=? reg_offset).

(** Remember the value of a test together with the equation it came from. *)
Definition inspect {A : Type} (a : A) : {b : A | a = b} := exist _ a eq_refl.

(** The [while] loop of [get_reg_name]; each iteration either returns or
    decrements [reg_offset], and the guard fails once it is negative. *)
Equations? get_reg_name_loop (arch : Arch) (original_offset reg_offset : Z)
  : result string by wf (Z.to_nat (reg_offset + 1)) lt :=
  get_reg_name_loop arch original_offset reg_offset
    with inspect (scan_guard arch original_offset reg_offset) := {
    | exist _ true Hguard with register_names arch !! reg_offset := {
        | Some name => Ok name
        | None => get_reg_name_loop arch original_offset (reg_offset - 1) }
    | exist _ false _ =>
        Raise (RegNotFoundException
                 ("register " +:+ PyStr.str original_offset +:+ " not found")) }.
Proof.
  unfold scan_guard in Hguard.
  apply andb_prop in Hguard as [H0 _]. apply Z.leb_le in H0. lia.
Qed.

Definition get_reg_name (arch : Arch) (reg_offset : option Z) : result string :=
  match reg_offset with
  | None => Raise (RegNotFoundException "register offset is None")
  | Some reg_offset =>
      let original_offset := reg_offset in
      get_reg_name_loop arch original_offset reg_offset
  end.

(** The example table of the design document. *)
Definition arch64 : Arch :=
  mkArch 64 (list_to_map [(0, "rax"); (8, "rbx")]).

(** ** Symbolic expressions

    Expressions are built by the engine; the module only reads their set of
    named roots ([ast.variables]), their width ([ast.size()]) and their
    [symbolic] flag, compares them with integers ([ast == v]) and, in
    [make_initial_state], adds an integer to one. *)

Inductive binop : Type := OpAdd | OpSub | OpAnd | OpOr | OpXor.

Inductive Ast : Type :=
| BVV (value : Z) (size : N)              (* concrete bitvector *)
| BVS (name : string) (size : N)          (* named symbolic root *)
| BinOp (op : binop) (a b : Ast).

(** [ast.variables] *)
Fixpoint variables (ast : Ast) : gset string :=
  match ast with
  | BVV _ _ => ∅
  | BVS name _ => {[ name ]}
  | BinOp _ a b => variables a ∪ variables b
  end.

(** [ast.size()] *)
Fixpoint ast_size (ast : Ast) : N :=
  match ast with
  | BVV _ size => size
  | BVS _ size => size
  | BinOp _ a _ => ast_size a
  end.

(** [ast.symbolic] *)
Fixpoint symbolic (ast : Ast) : bool :=
  match ast with
  | BVV _ _ => false
  | BVS _ _ => true
  | BinOp _ a b => symbolic a || symbolic b
  end.

(** [ast + k] for a Python integer [k]: concrete operands are folded, with
    wrap-around at the width of [ast]. *)
Definition bv_add_int (ast : Ast) (k : Z) : Ast :=
  match ast with
  | BVV v size => BVV ((v + k) mod 2 ^ Z.of_N size) size
  | _ => BinOp OpAdd ast (BVV (k mod 2 ^ Z.of_N (ast_size ast)) (ast_size ast))
  end.

(** The constraint [ast == v] handed to the solver. *)
Inductive Constraint : Type :=
| CEq (ast : Ast) (v : Z).

(** ** Dependency Extractor: [get_ast_dependency] *)

(** The function returns either the set it accumulated or the list literal
    [[]]. *)
Inductive collection : Type :=
| PySet (s : gset string)
| PyList (l : list string).

(** [var[5:].split("-")[0]] *)
Definition decode_tag (var : string) : string :=
  PyStr.split_head "-"%char (PyStr.slice_from 5 var).

(** The [for] loop over [ast.variables], in whatever order the set yields
    its elements. *)
Fixpoint get_ast_dependency_loop (vars : list string) (dependencies : gset string)
  : collection :=
  match vars with
  | [] => PySet dependencies
  | var :: rest =>
      if PyStr.startswith var "sreg_"
      then get_ast_dependency_loop rest (dependencies ∪ {[ decode_tag var ]})
      else PyList []
  end.

Definition get_ast_dependency (ast : Ast) : collection :=
  let dependencies := ∅ in
  get_ast_dependency_loop (elements (variables ast)) dependencies.

(** ** Machine states and the heap of state objects *)

Record SimState : Type := mkState {
  state_arch : Arch;                      (* state.arch *)
  registers : gmap string Ast;            (* state.registers / state.regs *)
  memory : list (Ast * Ast);              (* stores: (address, value) *)
  constraints : list Constraint;          (* accumulated path constraints *)
  options : gset string;                  (* state.options *)
  solver_timeout : option Z               (* state.se._solver.timeout *)
}.

Definition with_registers (f : gmap string Ast -> gmap string Ast) (st : SimState) : SimState :=
  mkState (state_arch st) (f (registers st)) (memory st) (constraints st)
          (options st) (solver_timeout st).
Definition with_memory (f : list (Ast * Ast) -> list (Ast * Ast)) (st : SimState) : SimState :=
  mkState (state_arch st) (registers st) (f (memory st)) (constraints st)
          (options st) (solver_timeout st).
Definition with_constraints (f : list Constraint -> list Constraint) (st : SimState) : SimState :=
  mkState (state_arch st) (registers st) (memory st) (f (constraints st))
          (options st) (solver_timeout st).
Definition with_options (f : gset string -> gset string) (st : SimState) : SimState :=
  mkState (state_arch st) (registers st) (memory st) (constraints st)
          (f (options st)) (solver_timeout st).
Definition with_solver_timeout (t : option Z) (st : SimState) : SimState :=
  mkState (state_arch st) (registers st) (memory st) (constraints st)
          (options st) t.

(** A Python name denotes a reference to a state object. *)
Abbreviation loc := nat (only parsing).
Abbreviation Heap := (list SimState) (only parsing).

(** Computations that read and update the heap and may raise. *)
Definition M (A : Type) : Type := Heap -> result A * Heap.

Definition ret {A : Type} (a : A) : M A := fun h => (Ok a, h).
Definition raise {A : Type} (e : exn) : M A := fun h => (Raise e, h).
Definition bind {A B : Type} (m : M A) (k : A -> M B) : M B :=
  fun h => match m h with
           | (Ok a, h') => k a h'
           | (Raise e, h') => (Raise e, h')
           end.

Declare Scope py_scope.
Delimit Scope py_scope with py.
Notation "x <- m ;; k" := (bind m (fun x => k))
  (at level 100, m at next level, right associativity) : py_scope.
Notation "m ;; k" := (bind m (fun _ => k))
  (at level 100, right associativity) : py_scope.
Local Open Scope py_scope.

(** [try: m except E: handler] for one exception class. *)
Definition try_except {A : Type} (m : M A) (catches : exn -> bool) (handler : M A) : M A :=
  fun h => match m h with
           | (Raise e, h') => if catches e then handler h' else (Raise e, h')
           | r => r
           end.

Definition lift_option {A : Type} (o : option A) (e : exn) : M A :=
  match o with
  | Some a => ret a
  | None => raise e
  end.

(** [l[i]] *)
Definition index {A : Type} (l : list A) (i : nat) : M A :=
  lift_option (l !! i) IndexError.

(** [len(l)] *)
Definition len {A : Type} (l : list A) : Z := Z.of_nat (length l).

(** Reading and updating the object behind a reference. *)
Definition deref (l : loc) : M SimState :=
  fun h => match h !! l with
           | Some st => (Ok st, h)
           | None => (Raise InvalidReference, h)
           end.

Definition modify (l : loc) (f : SimState -> SimState) : M unit :=
  fun h => match h !! l with
           | Some st => (Ok tt, <[ l := f st ]> h)
           | None => (Raise InvalidReference, h)
           end.

(** A new object is given the first unused reference. *)
Definition alloc (st : SimState) : M loc :=
  fun h => (Ok (length h), h ++ [st]).

(** [state.copy()] *)
Definition copy (state : loc) : M loc :=
  st <- deref state ;; alloc st.

(** [state.registers.load(reg)], also [state.regs.<reg>] *)
Definition registers_load (state : loc) (reg : string) : M Ast :=
  st <- deref state ;; lift_option (registers st !! reg) (KeyError reg).

(** [state.registers.store(reg, v)], also [state.regs.<reg> = v] *)
Definition registers_store (state : loc) (reg : string) (v : Ast) : M unit :=
  st <- deref state ;;
  match registers st !! reg with
  | Some _ => modify state (with_registers <[ reg := v ]>)
  | None => raise (KeyError reg)
  end.

(** [state.add_constraints(c)] *)
Definition add_constraints (state : loc) (c : Constraint) : M unit :=
  modify state (with_constraints (fun cs => cs ++ [c])).

(** [state.mem[addr:] = v] *)
Definition mem_store (state : loc) (addr v : Ast) : M unit :=
  modify state (with_memory (fun m => m ++ [(addr, v)])).

(** ** The solver

    The satisfiability and enumeration queries are answered by the engine's
    solver, from the constraints of the state and the extra ones of the
    query; a query leaves the state as it is. *)

Record Solver : Type := mkSolver {
  (* state.se.satisfiable(extra_constraints=extra) *)
  se_satisfiable : SimState -> list Constraint -> bool;
  (* state.se.any_n_int(ast, n) *)
  se_any_n_int : SimState -> Ast -> nat -> list Z
}.

Definition satisfiable (se : Solver) (state : loc) (extra_constraints : list Constraint) : M bool :=
  st <- deref state ;; ret (se_satisfiable se st extra_constraints).

Definition any_n_int (se : Solver) (state : loc) (ast : Ast) (n : nat) : M (list Z) :=
  st <- deref state ;; ret (se_any_n_int se st ast n).

(** ** Unconstrained-Value Heuristic: [unconstrained_check] *)

(** [1 << size] *)
Definition one_shl (size : N) : Z := Z.shiftl 1 (Z.of_N size).

(** The five probe values of lines 69-75; [None] stands for the [ValueError]
    of [int(.., 2)]. *)
Definition test_val_0 : Z := 0x0.

Definition test_val_1 (size : N) : Z := one_shl size - 1.

Definition test_val_2 (size : N) : option Z :=
  raw ← PyStr.int2 (PyStr.repeat "1010" 16);
  Some (raw mod one_shl size).

Definition test_val_3 (size : N) : option Z :=
  raw ← PyStr.int2 (PyStr.repeat "0101" 16);
  Some (raw mod one_shl size).

Definition test_val_4 (size : N) : option Z :=
  raw ← PyStr.int2 (PyStr.repeat "1001" 2 +:+ PyStr.repeat "1010" 2 +:+
                    PyStr.repeat "1011" 2 +:+ PyStr.repeat "1100" 2 +:+
                    PyStr.repeat "1101" 2 +:+ PyStr.repeat "1110" 2 +:+
                    PyStr.repeat "1110" 2 +:+ PyStr.repeat "0001" 2);
  Some (raw mod one_shl size).

Definition unconstrained_check (se : Solver) (state : loc) (ast : Ast) : M bool :=
  let size := ast_size ast in
  let test_val_0 := test_val_0 in
  let test_val_1 := test_val_1 size in
  test_val_2 <- lift_option (test_val_2 size) ValueError ;;
  test_val_3 <- lift_option (test_val_3 size) ValueError ;;
  test_val_4 <- lift_option (test_val_4 size) ValueError ;;
  sat_0 <- satisfiable se state [CEq ast test_val_0] ;;
  if negb sat_0 then ret false else
  sat_1 <- satisfiable se state [CEq ast test_val_1] ;;
  if negb sat_1 then ret false else
  sat_2 <- satisfiable se state [CEq ast test_val_2] ;;
  if negb sat_2 then ret false else
  sat_3 <- satisfiable se state [CEq ast test_val_3] ;;
  if negb sat_3 then ret false else
  sat_4 <- satisfiable se state [CEq ast test_val_4] ;;
  if negb sat_4 then ret false else
  ret true.

(** ** Controllability Prober: [get_ast_controllers] *)

(** [0x4141414141414141 % (2 << bits)] *)
Definition sentinel (bits : N) : Z :=
  0x4141414141414141 mod Z.shiftl 2 (Z.of_N bits).

(** The loops at lines 40-43 and 49-53: every register of [regs] whose value
    is symbolic is constrained to [test_val]. *)
Fixpoint pin_registers (constrained_copy : loc) (test_val : Z) (regs : list string)
  : M unit :=
  match regs with
  | [] => ret tt
  | reg :: rest =>
      v <- registers_load constrained_copy reg ;;
      (if negb (symbolic v) then ret tt
       else v' <- registers_load constrained_copy reg ;;
            add_constraints constrained_copy (CEq v' test_val)) ;;
      pin_registers constrained_copy test_val rest
  end.

(** The loop at lines 47-56, over the registers still to be tried. *)
Fixpoint probe_registers (se : Solver) (test_state : loc) (ast : Ast)
    (test_val : Z) (reg_deps : list string)
    (todo : list string) (controllers : list string) : M (list string) :=
  match todo with
  | [] => ret controllers
  | reg :: rest =>
      constrained_copy <- copy test_state ;;
      pin_registers constrained_copy test_val
        (filter (fun a => a <> reg) reg_deps) ;;
      free <- unconstrained_check se constrained_copy ast ;;
      probe_registers se test_state ast test_val reg_deps rest
        (if free then controllers ++ [reg] else controllers)
  end.

(** [reg_deps] is the dependency collection in its iteration order. *)
Definition get_ast_controllers (se : Solver) (test_state : loc) (ast : Ast)
    (reg_deps : list string) : M (list string) :=
  st <- deref test_state ;;
  let test_val := sentinel (bits (state_arch st)) in
  let controllers := [] in
  if negb (symbolic ast) then ret controllers else
  constrained_copy <- copy test_state ;;
  pin_registers constrained_copy test_val reg_deps ;;
  vals <- any_n_int se constrained_copy ast 2 ;;
  if 1 <? len vals then ret controllers else
  probe_registers se test_state ast test_val reg_deps reg_deps controllers.

(** ** Execution paths and the program handle *)

(** A path object: the state it is at, its address, and its error if it has
    one ([p.errored] is [p.error is not None]). *)
Record Path : Type := mkPath {
  path_state : loc;                       (* p.state *)
  addr : Z;                               (* p.addr *)
  error : option string                   (* p.error *)
}.

Definition errored (p : Path) : bool :=
  match error p with Some _ => true | None => false end.

(** What the engine reports about one successor of a step: its state (a new
    object), its address and its error. *)
Record Successor : Type := mkSuccessor {
  successor_state : SimState;
  successor_addr : Z;
  successor_error : option string
}.

(** The outcome of [p.step()]: an exception, or the constrained successors
    ([p.successors], also the value [step] returns) and the unconstrained
    ones ([p.unconstrained_successors]). *)
Inductive StepOutcome : Type :=
| StepRaises (e : exn)
| Stepped (successors unconstrained_successors : list Successor).

(** The program handle, with the engine services reached through it. *)
Record Project : Type := mkProject {
  project_arch : Arch;                    (* project.arch *)
  blank : SimState;                       (* the engine's default blank state *)
  resilience_options : gset string;       (* simuvex.o.resilience_options *)
  simplification : gset string;           (* simuvex.o.simplification *)
  is_hooked : Z -> bool;                  (* project.is_hooked(addr) *)
  entry_of : SimState -> Z * option string;   (* address and error of a new path *)
  step : Path -> SimState -> StepOutcome  (* the engine's single step *)
}.

(** [project.factory.blank_state(add_options=.., remove_options=..)] *)
Definition blank_state (project : Project) (add_options remove_options : gset string)
  : M loc :=
  alloc (with_options (fun o => (o ∪ add_options) ∖ remove_options) (blank project)).

(** [project.factory.path(state=state)] *)
Definition new_path (project : Project) (state : loc) (st : SimState) : Path :=
  mkPath state (fst (entry_of project st)) (snd (entry_of project st)).

Definition factory_path (project : Project) (state : loc) : M Path :=
  st <- deref state ;; ret (new_path project state st).

(** Each successor reported by the engine becomes a path at a new state
    object. *)
Fixpoint new_paths (succs : list Successor) : M (list Path) :=
  match succs with
  | [] => ret []
  | s :: rest =>
      l <- alloc (successor_state s) ;;
      ps <- new_paths rest ;;
      ret (mkPath l (successor_addr s) (successor_error s) :: ps)
  end.

(** [p.step()], giving [(p.successors, p.unconstrained_successors)]; the
    engine steps the state the path is at without changing it. *)
Definition path_step (project : Project) (p : Path) : M (list Path * list Path) :=
  st <- deref (path_state p) ;;
  match step project p st with
  | StepRaises e => raise e
  | Stepped succs unconstrained =>
      ps <- new_paths succs ;;
      us <- new_paths unconstrained ;;
      ret (ps, us)
  end.

(** ** Entry-State Builder: [make_initial_state] *)

Definition make_initial_state (project : Project) (stack_length : N) : M loc :=
  initial_state <- blank_state project
      {[ "AVOID_MULTIVALUED_READS"; "AVOID_MULTIVALUED_WRITES";
         "NO_SYMBOLIC_JUMP_RESOLUTION"; "CGC_NO_SYMBOLIC_RECEIVE_LENGTH";
         "NO_SYMBOLIC_SYSCALL_RESOLUTION"; "TRACK_ACTION_HISTORY" ]}
      (resilience_options project ∪ simplification project) ;;
  modify initial_state
    (with_options (fun o => o ∖ {[ "CGC_ZERO_FILL_UNCONSTRAINED_MEMORY" ]})) ;;
  modify initial_state
    (with_options (fun o => o ∪ {[ "TRACK_REGISTER_ACTIONS"; "TRACK_MEMORY_ACTIONS";
                                   "TRACK_JMP_ACTIONS"; "TRACK_CONSTRAINT_ACTIONS" ]})) ;;
  let symbolic_stack :=
    BVS "symbolic_stack" (bits (project_arch project) * stack_length) in
  sp <- registers_load initial_state "sp" ;;
  mem_store initial_state sp symbolic_stack ;;
  sp <- registers_load initial_state "sp" ;;
  st <- deref initial_state ;;
  registers_store initial_state "bp"
    (bv_add_int sp (20 * Z.of_N (bits (state_arch st)))) ;;
  modify initial_state (with_solver_timeout (Some 500)) ;;
  ret initial_state.

(** ** Register-Symbolization Builder: [make_symbolic_state] *)

Fixpoint symbolize_registers (project : Project) (symbolic_state : loc)
    (reg_list : list string) : M unit :=
  match reg_list with
  | [] => ret tt
  | reg :: rest =>
      registers_store symbolic_state reg
        (BVS ("sreg_" +:+ reg +:+ "-") (bits (project_arch project))) ;;
      symbolize_registers project symbolic_state rest
  end.

Definition make_symbolic_state (project : Project) (reg_list : list string)
    (stack_length : N) : M loc :=
  input_state <- make_initial_state project stack_length ;;
  symbolic_state <- copy input_state ;;
  symbolize_registers project symbolic_state reg_list ;;
  sp <- registers_load input_state "sp" ;;
  registers_store symbolic_state "sp" sp ;;
  bp <- registers_load input_state "bp" ;;
  registers_store symbolic_state "bp" bp ;;
  ret symbolic_state.

(** ** Stepper: [step_to_unconstrained_successor] *)

Definition is_UnsupportedSyscallError (e : exn) : bool :=
  match e with UnsupportedSyscallError => true | _ => false end.

(** [state.options.add(simuvex.o.BYPASS_UNSUPPORTED_SYSCALL)] *)
Definition enable_bypass (st : SimState) : SimState :=
  with_options (fun o => o ∪ {[ "BYPASS_UNSUPPORTED_SYSCALL" ]}) st.

(** Lines 167-186, what follows the option update; [recurse] stands for the
    recursive call of line 181. *)
Definition stepper_body (recurse : loc -> option Path -> Z -> bool -> M Path)
    (project : Project) (state : loc) (path : option Path) (max_steps : Z)
    (allow_simprocedures : bool) : M Path :=
  p <- match path with
       | None => factory_path project state
       | Some path => ret path
       end ;;
  if errored p then raise (RopException (default "" (error p))) else
  stepped <- path_step project p ;;
  let p_successors := fst stepped in
  let p_unconstrained_successors := snd stepped in
  let successors := p_successors in
  if negb (len p_successors + len p_unconstrained_successors =? 1)
  then raise (RopException "Does not get to a single successor") else
  if (len p_successors =? 1) && (0 <? max_steps) then
    s0 <- index p_successors 0 ;;
    if negb allow_simprocedures && is_hooked project (addr s0)
    then raise (RopException "Skipping simprocedure") else
    s0 <- index p_successors 0 ;;
    path0 <- index successors 0 ;;
    recurse (path_state s0) (Some path0) (max_steps - 1) allow_simprocedures
  else
  if (len p_successors =? 1) && (max_steps =? 0)
  then raise (RopException "Does not get to an unconstrained successor") else
  p <- index p_unconstrained_successors 0 ;;
  ret p.

(** [depth] bounds the nesting of the recursive calls; the function below
    starts it at [max_steps], which the recursion never exceeds. *)
Fixpoint step_to_unconstrained_successor_rec (depth : nat) (project : Project)
    (state : loc) (path : option Path) (max_steps : Z) (allow_simprocedures : bool)
  : M Path :=
  try_except
    (modify state enable_bypass ;;
     stepper_body
       (match depth with
        | S depth' => step_to_unconstrained_successor_rec depth' project
        | O => fun _ _ _ _ => raise RecursionDepthExceeded
        end)
       project state path max_steps allow_simprocedures)
    is_UnsupportedSyscallError
    (raise (RopException "Does not get to a single unconstrained successor")).

Definition step_to_unconstrained_successor (project : Project) (state : loc)
    (path : option Path) (max_steps : Z) (allow_simprocedures : bool) : M Path :=
  step_to_unconstrained_successor_rec (Z.to_nat max_steps) project state path
    max_steps allow_simprocedures.

(** ** A small engine to run the functions on

    A solver that knows the values pinned by constraints of the form
    [root == v]: an expression all of whose roots are pinned has one value,
    a root that is not pinned can take any value of its width, and every
    other query is given up as unsatisfiable, as a timeout would be. *)

Module Toy.

Fixpoint pinned_value (cs : list Constraint) (x : string) : option Z :=
  match cs with
  | [] => None
  | CEq (BVS y _) v :: rest =>
      if String.eqb x y then Some v else pinned_value rest x
  | _ :: rest => pinned_value rest x
  end.

Definition apply_op (op : binop) (x y : Z) : Z :=
  match op with
  | OpAdd => x + y
  | OpSub => x - y
  | OpAnd => Z.land x y
  | OpOr => Z.lor x y
  | OpXor => Z.lxor x y
  end.

Fixpoint eval (cs : list Constraint) (ast : Ast) : option Z :=
  match ast with
  | BVV v size => Some (v mod 2 ^ Z.of_N size)
  | BVS x size => v ← pinned_value cs x; Some (v mod 2 ^ Z.of_N size)
  | BinOp op a b =>
      x ← eval cs a; y ← eval cs b;
      Some (apply_op op x y mod 2 ^ Z.of_N (ast_size a))
  end.

Definition holds (cs : list Constraint) (c : Constraint) : bool :=
  match c with
  | CEq ast v =>
      match eval cs ast with
      | Some w => w =? v
      | None =>
          match ast with
          | BVS _ size => (0 <=? v) && (v <? 2 ^ Z.of_N size)
          | _ => false
          end
      end
  end.

Definition solver : Solver :=
  mkSolver
    (fun st extra => forallb (holds (constraints st)) extra)
    (fun st ast n =>
       match eval (constraints st) ast with
       | Some w => take n [w]
       | None =>
           match ast with
           | BVS _ size => take n (filter (fun v => v < 2 ^ Z.of_N size) [0; 1])
           | _ => []
           end
       end).

(** A 64-bit target whose blank state has a concrete stack pointer. *)
Definition blank64 : SimState :=
  mkState arch64
    (list_to_map [("rax", BVV 0 64); ("rbx", BVV 0 64);
                  ("sp", BVV 0x7ffffffffff0000 64); ("bp", BVV 0 64)])
    [] [] {[ "SYMBOLIC"; "CGC_ZERO_FILL_UNCONSTRAINED_MEMORY" ]} None.

(** The engine steps to the successors listed for the address of the path;
    the address [0x500000] is hooked. *)
Definition project (steps : Z -> StepOutcome) : Project :=
  mkProject arch64 blank64 {[ "BYPASS_UNSUPPORTED_SYSCALL" ]} {[ "SIMPLIFY" ]}
    (fun a => a =? 0x500000)
    (fun _ => (0x400000, None))
    (fun p _ => steps (addr p)).

Definition successor_at (a : Z) : Successor := mkSuccessor blank64 a None.

(** From [0x400000] the program reaches [0x400004], then an unconstrained
    jump; from [0x400100] it forks. *)
Definition steps (a : Z) : StepOutcome :=
  if a =? 0x400000 then Stepped [successor_at 0x400004] []
  else if a =? 0x400004 then Stepped [] [successor_at 0]
  else if a =? 0x400100 then Stepped [successor_at 0x400104; successor_at 0x400108] []
  else StepRaises UnsupportedSyscallError.

(** A state whose registers [rax] and [rbx] hold tagged symbolic values. *)
Definition symbolic64 : SimState :=
  with_registers (fun r => <[ "rax" := BVS "sreg_rax-_7_64" 64 ]>
                             (<[ "rbx" := BVS "sreg_rbx-_8_64" 64 ]> r)) blank64.

End Toy.

(** ** The probe values as the design document words them *)

(** [pairs] repetitions of the bits [10]. *)
Fixpoint alternating (pairs : nat) : Z :=
  match pairs with
  | O => 0
  | S k => 4 * alternating k + 2
  end.

(** "The bit pattern [1010...] repeated to width [n]". *)
Definition spec_pattern_1010 (n : N) : Z := alternating (N.to_nat (n / 2)).

(** The [i]-th 4-bit nibble of [v], counted from the least significant. *)
Definition nibble (v : Z) (i : Z) : Z := Z.land (Z.shiftr v (4 * i)) 0xF.

(** The values compared with an expression of [size] bits, in the order of
    the queries. *)
Definition probe_values (size : N) : list Z :=
  [ 0; 2 ^ Z.of_N size - 1;
    0xAAAAAAAAAAAAAAAA mod 2 ^ Z.of_N size;
    0x5555555555555555 mod 2 ^ Z.of_N size;
    0x99AABBCCDDEEEE11 mod 2 ^ Z.of_N size ].

(** "Every 4-bit nibble differs from its neighbors", for a value of width
    [n]. *)
Definition nibbles_differ (n : Z) (v : Z) : Prop :=
  forall i, 0 <= i -> 4 * (i + 2) <= n -> nibble v i <> nibble v (i + 1).

(** A solver for an expression that can take exactly the values of
    [allowed]. *)
Definition solver_of_values (allowed : list Z) : Solver :=
  mkSolver
    (fun _ extra => forallb (fun c => match c with CEq _ v => bool_decide (v ∈ allowed) end) extra)
    (fun _ _ n => take n allowed).

(** The reading of the design document: the check succeeds exactly when 0,
    [2^n - 1], the pattern [1010...] of width [n], its complement and some
    value all of whose neighbouring nibbles differ are possible values. *)
Definition spec_five_probes (se : Solver) (st : SimState) (ast : Ast) : Prop :=
  let n := ast_size ast in
  exists distinguishing,
    0 <= distinguishing < 2 ^ Z.of_N n /\
    nibbles_differ (Z.of_N n) distinguishing /\
    Forall (fun v => se_satisfiable se st [CEq ast v] = true)
      [ 0; 2 ^ Z.of_N n - 1; spec_pattern_1010 n;
        2 ^ Z.of_N n - 1 - spec_pattern_1010 n; distinguishing ].

(** ** Vocabulary of the statements *)

(** The offsets the scan started at [o] visits: from [o] down to
    [max 0 (o - wordBytes)]. *)
Definition in_window (arch : Arch) (o b : Z) : Prop :=
  b <= o /\ 0 <= b /\ o - word_bytes arch <= b.

(** A root name that follows the tagging convention. *)
Definition tagged (var : string) : Prop := PyStr.startswith var "sreg_" = true.

(** The path the Stepper steps: the one it is given, or a new one at the
    state, which by then carries the added option. *)
Definition stepped_path (project : Project) (state : loc) (path : option Path)
    (st : SimState) : Path :=
  match path with
  | Some path => path
  | None => new_path project state (enable_bypass st)
  end.

(** Two expressions over a symbolized state: one over tagged roots only,
    one that also reads the symbolic stack. *)
Definition ast_rax_and_rbx : Ast :=
  BinOp OpAnd (BVS "sreg_rax-_7_64" 64) (BVS "sreg_rbx-_8_64" 64).

Definition ast_rax_plus_stack : Ast :=
  BinOp OpAdd (BVS "sreg_rax-_7_64" 64) (BVS "symbolic_stack_3_12800" 64).

(** ** Vocabulary for the effect of a computation on the heap *)

(** [keeps n m Q]: run from a heap of at least [n] objects, [m] leaves the
    first [n] objects as they are, and a value it returns satisfies [Q]. *)
Definition keeps {A : Type} (n : nat) (m : M A) (Q : A -> Prop) : Prop :=
  forall h, (n <= length h)%nat ->
    (n <= length (m h).2)%nat /\
    take n (m h).2 = take n h /\
    match (m h).1 with Ok a => Q a | Raise _ => True end.

(** The constraints the loop of lines 40-43 adds to a copy of [st]: one for
    each register of [regs], in order, whose value is symbolic. *)
Definition pin_constraints (st : SimState) (test_val : Z) (regs : list string)
  : list Constraint :=
  omap (fun reg => v ← registers st !! reg;
                   if symbolic v then Some (CEq v test_val) else None) regs.

Definition pinned (st : SimState) (test_val : Z) (regs : list string) : SimState :=
  with_constraints (fun cs => cs ++ pin_constraints st test_val regs) st.

(** ** Vocabulary of the further properties *)

(** Whether the character [c] occurs in [s]. *)
Fixpoint has_char (c : ascii) (s : string) : bool :=
  match s with
  | EmptyString => false
  | String c' s' => Ascii.eqb c' c || has_char c s'
  end.

(** The name [make_symbolic_state] gives the value of register [reg], with
    the suffix the engine appends to make it unique. *)
Definition sreg_name (reg suffix : string) : string :=
  "sreg_" +:+ reg +:+ "-" +:+ suffix.

(** The state [make_initial_state] builds from the blank state of the
    project, whose stack pointer is [sp]. *)
Definition entry_state (project : Project) (stack_length : N) (sp : Ast) : SimState :=
  with_solver_timeout (Some 500)
    (with_registers
       <[ "bp" := bv_add_int sp (20 * Z.of_N (bits (state_arch (blank project)))) ]>
       (with_memory
          (fun m => m ++ [(sp, BVS "symbolic_stack"
                                 (bits (project_arch project) * stack_length))])
          (with_options
             (fun o => o ∪ {[ "TRACK_REGISTER_ACTIONS"; "TRACK_MEMORY_ACTIONS";
                              "TRACK_JMP_ACTIONS"; "TRACK_CONSTRAINT_ACTIONS" ]})
             (with_options
                (fun o => o ∖ {[ "CGC_ZERO_FILL_UNCONSTRAINED_MEMORY" ]})
                (with_options
                   (fun o => (o ∪ {[ "AVOID_MULTIVALUED_READS"; "AVOID_MULTIVALUED_WRITES";
                                     "NO_SYMBOLIC_JUMP_RESOLUTION";
                                     "CGC_NO_SYMBOLIC_RECEIVE_LENGTH";
                                     "NO_SYMBOLIC_SYSCALL_RESOLUTION";
                                     "TRACK_ACTION_HISTORY" ]})
                             ∖ (resilience_options project ∪ simplification project))
                   (blank project)))))).

(** The register file after the loop of lines 147-148 over [reg_list]. *)
Definition symbolized (bits : N) (reg_list : list string) (regs : gmap string Ast)
  : gmap string Ast :=
  foldl (fun m reg => <[ reg := BVS ("sreg_" +:+ reg +:+ "-") bits ]> m) regs reg_list.

(** The paths [p.step()] makes of the successors the engine reports, their
    states being the objects allocated from reference [base] on. *)
Definition paths_at (base : nat) (succs : list Successor) : list Path :=
  imap (fun i s => mkPath (base + i) (successor_addr s) (successor_error s)) succs.

(** Whether the five queries of [unconstrained_check] all succeed on a state
    with content [st]. *)
Definition passes_check (se : Solver) (st : SimState) (ast : Ast) : bool :=
  forallb (fun v => se_satisfiable se st [CEq ast v]) (probe_values (ast_size ast)).

(** The fork in which every symbolic dependency register but [reg] is
    pinned. *)
Definition pinned_but (st : SimState) (test_val : Z) (reg_deps : list string)
    (reg : string) : SimState :=
  pinned st test_val (filter (fun a => a <> reg) reg_deps).

(** * Properties *)

(** ** Register Resolver *)

Section RegisterResolver.

Variable arch : Arch.

Lemma scan_guard_true o r :
  scan_guard arch o r = true <-> 0 <= r /\ o - word_bytes arch <= r.
Proof. unfold scan_guard. rewrite andb_true_iff, !Z.leb_le. tauto. Qed.

Lemma scan_guard_false o r :
  scan_guard arch o r = false <-> r < 0 \/ r < o - word_bytes arch.
Proof. unfold scan_guard. rewrite andb_false_iff, !Z.leb_gt. tauto. Qed.

(** One turn of the loop. *)
Lemma get_reg_name_loop_step o r :
  get_reg_name_loop arch o r =
  if scan_guard arch o r then
    match register_names arch !! r with
    | Some name => Ok name
    | None => get_reg_name_loop arch o (r - 1)
    end
  else Raise (RegNotFoundException ("register " +:+ PyStr.str o +:+ " not found")).
Proof.
  funelim (get_reg_name_loop arch o r);
    repeat match goal with
           | H : scan_guard _ _ _ = _ |- _ => rewrite H
           | H : register_names _ !! _ = _ |- _ => rewrite H
           end; reflexivity.
Qed.

(** Induction downwards on the scanned offset: below zero nothing is left
    to do, and step [r] may rely on step [r - 1]. *)
Lemma scan_ind (P : Z -> Prop) :
  (forall r, r < 0 -> P r) ->
  (forall r, 0 <= r -> P (r - 1) -> P r) ->
  forall r, P r.
Proof.
  intros Hneg Hstep r.
  destruct (Z.lt_ge_cases r 0) as [?|Hr]; [by apply Hneg|].
  revert r Hr. apply natlike_ind.
  - apply Hstep; [lia|]. apply Hneg; lia.
  - intros x Hx IH. apply Hstep; [lia|].
    by replace (Z.succ x - 1) with x by lia.
Qed.

(** A successful scan stops at the first listed offset below its start. *)
Lemma get_reg_name_loop_Ok o r name :
  get_reg_name_loop arch o r = Ok name ->
  exists b, b <= r /\ 0 <= b /\ o - word_bytes arch <= b /\
            register_names arch !! b = Some name /\
            forall b', b < b' <= r -> register_names arch !! b' = None.
Proof.
  induction r as [r Hr|r Hr IH] using scan_ind;
    rewrite get_reg_name_loop_step;
    destruct (scan_guard arch o r) eqn:Hguard; try discriminate.
  - apply scan_guard_true in Hguard. lia.
  - apply scan_guard_true in Hguard as [? ?].
    destruct (register_names arch !! r) as [n|] eqn:Hlook.
    + intros [= ->]. exists r. split_and!; [lia..|done|intros b' ?; lia].
    + intros Hres. destruct (IH Hres) as (b & ? & ? & ? & ? & Hgap).
      exists b. split_and!; [lia..|done|].
      intros b' Hb'. destruct (decide (b' = r)) as [->|]; [done|].
      apply Hgap; lia.
Qed.

(** A failed scan has seen every offset of the window below its start. *)
Lemma get_reg_name_loop_Raise o r e :
  get_reg_name_loop arch o r = Raise e ->
  e = RegNotFoundException ("register " +:+ PyStr.str o +:+ " not found") /\
  forall b, 0 <= b -> o - word_bytes arch <= b -> b <= r ->
            register_names arch !! b = None.
Proof.
  induction r as [r Hr|r Hr IH] using scan_ind;
    rewrite get_reg_name_loop_step;
    destruct (scan_guard arch o r) eqn:Hguard.
  - apply scan_guard_true in Hguard. lia.
  - intros [= <-]. split; [done|]. intros; lia.
  - destruct (register_names arch !! r) as [n|] eqn:Hlook; [discriminate|].
    intros Hres. destruct (IH Hres) as [-> Hnone]. split; [done|].
    intros b ? ? ?. destruct (decide (b = r)) as [->|]; [done|]. apply Hnone; lia.
  - intros [= <-]. split; [done|].
    apply scan_guard_false in Hguard. intros b ? ? ?. lia.
Qed.

End RegisterResolver.

Lemma word_bytes_nonneg arch : 0 <= word_bytes arch.
Proof. unfold word_bytes. apply Z.div_pos; lia. Qed.

(** C9: for every register listed in the architecture's register table (at
    its byte offset [o], a non-negative number), [get_reg_name] called with
    that base offset returns that register's own name. *)
Theorem get_reg_name_base_offset (arch : Arch) (o : Z) (name : string) :
  register_names arch !! o = Some name ->
  0 <= o ->
  get_reg_name arch (Some o) = Ok name.
Proof.
  intros Hlisted Ho. cbn. rewrite get_reg_name_loop_step.
  pose proof (word_bytes_nonneg arch).
  replace (scan_guard arch o o) with true
    by (symmetry; apply scan_guard_true; lia).
  by rewrite Hlisted.
Qed.

Lemma get_reg_name_base_offset_witness :
  register_names arch64 !! 8 = Some "rbx" /\ 0 <= 8 /\
  get_reg_name arch64 (Some 8) = Ok "rbx".
Proof.
  split; [vm_compute; reflexivity|]. split; [lia|].
  apply (get_reg_name_base_offset arch64 8 "rbx"); [vm_compute; reflexivity|lia].
Defined.

(** What a successful resolution tells about the table. *)
Lemma get_reg_name_Ok_inv (arch : Arch) (o : Z) (name : string) :
  get_reg_name arch (Some o) = Ok name ->
  exists b, register_names arch !! b = Some name /\ in_window arch o b /\
            forall b', b < b' <= o -> register_names arch !! b' = None.
Proof.
  intros Hres. cbn in Hres.
  apply get_reg_name_loop_Ok in Hres as (b & ? & ? & ? & ? & Hgap).
  exists b. unfold in_window. split_and!; done.
Qed.

Lemma get_reg_name_Raise_inv (arch : Arch) (o : Z) (e : exn) :
  get_reg_name arch (Some o) = Raise e ->
  e = RegNotFoundException ("register " +:+ PyStr.str o +:+ " not found") /\
  forall b, in_window arch o b -> register_names arch !! b = None.
Proof.
  intros Hres. cbn in Hres.
  apply get_reg_name_loop_Raise in Hres as [-> Hnone].
  split; [done|]. intros b (? & ? & ?). by apply Hnone.
Qed.

(** The first listed base below [o], inside the window, is the answer. *)
Lemma get_reg_name_first_base (arch : Arch) (o b : Z) (name : string) :
  register_names arch !! b = Some name ->
  in_window arch o b ->
  (forall b', b < b' <= o -> register_names arch !! b' = None) ->
  get_reg_name arch (Some o) = Ok name.
Proof.
  intros Hb Hwin Hgap.
  destruct (get_reg_name arch (Some o)) as [name'|e] eqn:Hres.
  - apply get_reg_name_Ok_inv in Hres as (b' & Hb' & (? & ? & ?) & Hgap').
    destruct Hwin as (? & ? & ?).
    destruct (Z.lt_trichotomy b b') as [?|[->|?]].
    + rewrite Hgap in Hb' by lia. discriminate.
    + congruence.
    + rewrite Hgap' in Hb by lia. discriminate.
  - apply get_reg_name_Raise_inv in Hres as [_ Hnone].
    rewrite Hnone in Hb by done. discriminate.
Qed.

(** C10: for a supplied offset [o], [get_reg_name] returns the name listed at
    the greatest base offset [b] of the table with [b <= o], [0 <= b] and
    [o - wordBytes <= b]; hence an offset lying up to [wordBytes] bytes past
    a base, with no other base in between, resolves to the register at that
    base; and [RegNotFoundException] is raised exactly when the table lists
    no such base. *)
Theorem get_reg_name_greatest_base (arch : Arch) (o : Z) :
  (forall name,
      get_reg_name arch (Some o) = Ok name <->
      exists b, register_names arch !! b = Some name /\ in_window arch o b /\
                forall b', in_window arch o b' ->
                           is_Some (register_names arch !! b') -> b' <= b) /\
  (forall b name,
      register_names arch !! b = Some name ->
      0 <= b -> b <= o <= b + word_bytes arch ->
      (forall b', b < b' <= o -> register_names arch !! b' = None) ->
      get_reg_name arch (Some o) = Ok name) /\
  ((exists e, get_reg_name arch (Some o) = Raise e) <->
   forall b, in_window arch o b -> register_names arch !! b = None) /\
  (forall e, get_reg_name arch (Some o) = Raise e ->
             e = RegNotFoundException ("register " +:+ PyStr.str o +:+ " not found")).
Proof.
  split_and!.
  - intros name. split.
    + intros Hres. apply get_reg_name_Ok_inv in Hres as (b & Hb & Hwin & Hgap).
      exists b. split_and!; [done..|].
      intros b' (? & ? & ?) [n Hn].
      destruct (Z.le_gt_cases b' b) as [?|?]; [done|].
      rewrite Hgap in Hn by lia. discriminate.
    + intros (b & Hb & Hwin & Hmax). apply (get_reg_name_first_base arch o b name Hb Hwin).
      intros b' ?. destruct (register_names arch !! b') as [n|] eqn:Hn; [|done].
      destruct Hwin as (? & ? & ?).
      assert (b' <= b); [|lia].
      apply Hmax; [unfold in_window; lia|by rewrite Hn].
  - intros b name Hb ? ? Hgap.
    apply (get_reg_name_first_base arch o b name Hb); [unfold in_window; lia|done].
  - split.
    + intros [e Hres]. by apply get_reg_name_Raise_inv in Hres as [_ Hnone].
    + intros Hnone. destruct (get_reg_name arch (Some o)) as [name|e] eqn:Hres; [|by eexists].
      apply get_reg_name_Ok_inv in Hres as (b & Hb & Hwin & _).
      rewrite Hnone in Hb by done. discriminate.
  - intros e Hres. by apply get_reg_name_Raise_inv in Hres as [-> _].
Qed.

Example get_reg_name_ex1 : get_reg_name arch64 (Some 8) = Ok "rbx".
Proof. vm_compute. reflexivity. Qed.
Example get_reg_name_ex2 : get_reg_name arch64 (Some 5) = Ok "rax".
Proof. vm_compute. reflexivity. Qed.
Example get_reg_name_ex3 : get_reg_name arch64 (Some 17) =
  Raise (RegNotFoundException "register 17 not found").
Proof. vm_compute. reflexivity. Qed.

(** ** Dependency Extractor *)

Lemma get_ast_dependency_loop_tagged vars deps :
  Forall tagged vars ->
  get_ast_dependency_loop vars deps
  = PySet (deps ∪ list_to_set (decode_tag <$> vars)).
Proof.
  intros Hall. revert deps.
  induction Hall as [|var rest Hvar _ IH]; intros deps; cbn.
  - f_equal. set_solver.
  - unfold tagged in Hvar. rewrite Hvar, IH. f_equal. set_solver.
Qed.

Lemma get_ast_dependency_loop_untagged vars deps :
  Exists (fun var => ~ tagged var) vars ->
  get_ast_dependency_loop vars deps = PyList [].
Proof.
  intros Hex. revert deps.
  induction Hex as [var rest Hvar|var rest _ IH]; intros deps; cbn.
  - unfold tagged in Hvar. by destruct (PyStr.startswith var "sreg_").
  - destruct (PyStr.startswith var "sreg_"); [apply IH|done].
Qed.

(** The tagging convention on strings. *)
Lemma split_head_append_dash reg rest :
  PyStr.split_head "-" (reg +:+ "-" +:+ rest) = PyStr.split_head "-" reg.
Proof.
  induction reg as [|c reg IH]; [reflexivity|].
  simpl. destruct (Ascii.eqb c "-"); [done|]. f_equal. apply IH.
Qed.

Lemma split_head_no_dash reg :
  has_char "-" reg = false -> PyStr.split_head "-" reg = reg.
Proof.
  induction reg as [|c reg IH]; [done|]. cbn.
  intros [Hc Hrest]%orb_false_elim. rewrite Hc. f_equal. by apply IH.
Qed.

Lemma split_head_dash reg :
  has_char "-" reg = true -> PyStr.split_head "-" reg <> reg.
Proof.
  induction reg as [|c reg IH]; [done|]. cbn.
  destruct (Ascii.eqb c "-") eqn:Hc; [done|]. cbn.
  intros Hrest [= Heq]. by apply IH.
Qed.

Lemma decode_tag_sreg_name reg suffix :
  decode_tag (sreg_name reg suffix) = PyStr.split_head "-" reg.
Proof. unfold decode_tag, sreg_name. simpl. apply split_head_append_dash. Qed.

Lemma startswith_sreg_name reg suffix :
  PyStr.startswith (sreg_name reg suffix) "sreg_" = true.
Proof.
  unfold PyStr.startswith, sreg_name. simpl.
  repeat (destruct (ascii_dec _ _) as [_|Hne]; [|by destruct Hne]).
  by destruct reg.
Qed.

(** C4: when every named root of the expression follows the tagging
    convention - it is ["sreg_" + reg + "-" + suffix] for a register name
    [reg] without a dash - [get_ast_dependency] returns a set, and that set
    holds exactly the register names [reg] of the roots, no other name and
    none missing. More generally, when every root carries the prefix
    [sreg_], the result is the set of the [var[5:].split("-")[0]]. When some
    root does not carry the prefix, the result is the empty list, whatever
    tagged roots are present as well. *)
Theorem get_ast_dependency_tagged_roots (ast : Ast) :
  ((forall var, var ∈ variables ast ->
                exists reg suffix, has_char "-" reg = false /\
                                   var = sreg_name reg suffix) ->
   exists deps,
     get_ast_dependency ast = PySet deps /\
     forall reg, reg ∈ deps <->
                 exists suffix, has_char "-" reg = false /\
                                sreg_name reg suffix ∈ variables ast) /\
  ((forall var, var ∈ variables ast -> PyStr.startswith var "sreg_" = true) ->
   get_ast_dependency ast = PySet (set_map decode_tag (variables ast))) /\
  ((exists var, var ∈ variables ast /\ PyStr.startswith var "sreg_" = false) ->
   get_ast_dependency ast = PyList []).
Proof.
  assert (Hprefix :
            (forall var, var ∈ variables ast -> PyStr.startswith var "sreg_" = true) ->
            get_ast_dependency ast = PySet (set_map decode_tag (variables ast))).
  { intros Hall. unfold get_ast_dependency. rewrite get_ast_dependency_loop_tagged.
    - f_equal. unfold set_map. set_solver.
    - apply Forall_forall. intros var Hvar. apply Hall. by apply elem_of_elements. }
  split_and!; [|exact Hprefix|].
  - intros Htags. exists (set_map decode_tag (variables ast)). split.
    + apply Hprefix. intros var Hvar.
      destruct (Htags var Hvar) as (reg & suffix & _ & ->).
      apply startswith_sreg_name.
    + intros reg. rewrite elem_of_map. split.
      * intros (var & -> & Hvar).
        destruct (Htags var Hvar) as (reg & suffix & Hdash & ->).
        rewrite decode_tag_sreg_name, split_head_no_dash by done.
        by exists suffix.
      * intros (suffix & Hdash & Hvar). exists (sreg_name reg suffix).
        by rewrite decode_tag_sreg_name, split_head_no_dash.
  - intros (var & Hvar & Hun). apply get_ast_dependency_loop_untagged.
    apply Exists_exists. exists var. split; [by apply elem_of_elements|].
    unfold tagged. by rewrite Hun.
Qed.

Example get_ast_dependency_ex1 :
  get_ast_dependency ast_rax_and_rbx = PySet {[ "rax"; "rbx" ]}.
Proof. vm_compute. reflexivity. Qed.

Example get_ast_dependency_ex2 :
  get_ast_dependency ast_rax_plus_stack = PyList [].
Proof. vm_compute. reflexivity. Qed.

Lemma get_ast_dependency_tagged_roots_witness :
  (exists deps,
      get_ast_dependency ast_rax_and_rbx = PySet deps /\
      "rax" ∈ deps /\ "rbx" ∈ deps /\ ("rcx" ∉ deps) /\ ("sreg_rax-_7_64" ∉ deps)) /\
  get_ast_dependency ast_rax_plus_stack = PyList [].
Proof.
  split.
  - destruct (proj1 (get_ast_dependency_tagged_roots ast_rax_and_rbx))
      as (deps & Hres & Hdeps).
    { intros var Hvar. cbn in Hvar.
      apply elem_of_union in Hvar as [Hvar|Hvar]; apply elem_of_singleton in Hvar;
        subst var.
      - exists "rax", "_7_64". split; reflexivity.
      - exists "rbx", "_8_64". split; reflexivity. }
    exists deps. split; [exact Hres|]. split_and!.
    + apply Hdeps. exists "_7_64". split; [reflexivity|].
      cbn. apply elem_of_union_l. by apply elem_of_singleton.
    + apply Hdeps. exists "_8_64". split; [reflexivity|].
      cbn. apply elem_of_union_r. by apply elem_of_singleton.
    + intros Hin. apply Hdeps in Hin as (suffix & _ & Hvar). cbn in Hvar.
      apply elem_of_union in Hvar as [Hvar|Hvar]; apply elem_of_singleton in Hvar;
        discriminate.
    + intros Hin. apply Hdeps in Hin as (suffix & Hdash & _). discriminate.
  - apply (get_ast_dependency_tagged_roots ast_rax_plus_stack).
    exists "symbolic_stack_3_12800". split; [|reflexivity].
    cbn. apply elem_of_union_r. by apply elem_of_singleton.
Defined.

(** ** Unconstrained-Value Heuristic *)

Lemma one_shl_pow2 size : one_shl size = 2 ^ Z.of_N size.
Proof. unfold one_shl. rewrite Z.shiftl_1_l. reflexivity. Qed.

Lemma test_val_1_eq size : test_val_1 size = 2 ^ Z.of_N size - 1.
Proof. unfold test_val_1. by rewrite one_shl_pow2. Qed.

Lemma test_val_2_eq size :
  test_val_2 size = Some (0xAAAAAAAAAAAAAAAA mod 2 ^ Z.of_N size).
Proof.
  unfold test_val_2. rewrite one_shl_pow2.
  by replace (PyStr.int2 (PyStr.repeat "1010" 16)) with (Some 0xAAAAAAAAAAAAAAAA)
    by (vm_compute; reflexivity).
Qed.

Lemma test_val_3_eq size :
  test_val_3 size = Some (0x5555555555555555 mod 2 ^ Z.of_N size).
Proof.
  unfold test_val_3. rewrite one_shl_pow2.
  by replace (PyStr.int2 (PyStr.repeat "0101" 16)) with (Some 0x5555555555555555)
    by (vm_compute; reflexivity).
Qed.

Lemma test_val_4_eq size :
  test_val_4 size = Some (0x99AABBCCDDEEEE11 mod 2 ^ Z.of_N size).
Proof.
  unfold test_val_4. rewrite one_shl_pow2.
  match goal with
  | |- context [PyStr.int2 ?lit] =>
      replace (PyStr.int2 lit) with (Some 0x99AABBCCDDEEEE11)
        by (vm_compute; reflexivity)
  end.
  reflexivity.
Qed.

(** Running a sequence: the first computation, then the rest. *)
Lemma bind_run {A B} (m : M A) (k : A -> M B) h :
  bind m k h = match m h with
               | (Ok a, h') => k a h'
               | (Raise e, h') => (Raise e, h')
               end.
Proof. reflexivity. Qed.

Lemma bind_ret_run {A B} (a : A) (k : A -> M B) h : bind (ret a) k h = k a h.
Proof. reflexivity. Qed.

Lemma deref_run state h st : h !! state = Some st -> deref state h = (Ok st, h).
Proof. intros Hst. unfold deref. by rewrite Hst. Qed.

Lemma deref_dangling state h :
  h !! state = None -> deref state h = (Raise InvalidReference, h).
Proof. intros Hst. unfold deref. by rewrite Hst. Qed.

Lemma satisfiable_run se state q h st :
  h !! state = Some st ->
  satisfiable se state q h = (Ok (se_satisfiable se st q), h).
Proof. intros Hst. unfold satisfiable. by rewrite bind_run, (deref_run _ _ _ Hst). Qed.

Lemma satisfiable_dangling se state q h :
  h !! state = None -> satisfiable se state q h = (Raise InvalidReference, h).
Proof. intros Hst. unfold satisfiable. by rewrite bind_run, (deref_dangling _ _ Hst). Qed.

(** The check is the conjunction of its five queries and leaves the heap as
    it is. *)
Lemma unconstrained_check_run se state ast h st :
  h !! state = Some st ->
  unconstrained_check se state ast h
  = (Ok (forallb (fun v => se_satisfiable se st [CEq ast v])
                 (probe_values (ast_size ast))), h).
Proof.
  intros Hst. unfold unconstrained_check.
  rewrite test_val_1_eq, test_val_2_eq, test_val_3_eq, test_val_4_eq.
  unfold lift_option, probe_values, test_val_0. rewrite !bind_ret_run.
  cbn [forallb].
  repeat (rewrite bind_run, (satisfiable_run _ _ _ _ _ Hst);
          match goal with
          | |- context [negb (se_satisfiable se st ?q)] =>
              destruct (se_satisfiable se st q); cbn [negb andb]; [|reflexivity]
          end).
  reflexivity.
Qed.

Lemma unconstrained_check_dangling se state ast h :
  h !! state = None ->
  unconstrained_check se state ast h = (Raise InvalidReference, h).
Proof.
  intros Hst. unfold unconstrained_check.
  rewrite test_val_2_eq, test_val_3_eq, test_val_4_eq.
  unfold lift_option. rewrite !bind_ret_run.
  by rewrite bind_run, (satisfiable_dangling _ _ _ _ Hst).
Qed.

(** For widths up to 64 the third and fourth values are the alternating
    patterns: bit [i] of the one is set for odd [i], of the other for even
    [i]; no bit from 64 on is ever set. *)
Lemma bits_of_0xAAAA i :
  0 <= i -> Z.testbit 0xAAAAAAAAAAAAAAAA i = Z.odd i && (i <? 64).
Proof.
  intros Hi. destruct (Z.ltb_spec i 64) as [Hlt|Hge].
  - rewrite andb_true_r.
    assert (Hn : exists k, (k < 64)%nat /\ i = Z.of_nat k)
      by (exists (Z.to_nat i); lia).
    destruct Hn as (k & Hk & ->).
    do 64 (destruct k as [|k]; [reflexivity|]). lia.
  - rewrite andb_false_r. apply Z.bits_above_log2; [lia|].
    apply Z.log2_lt_pow2; [lia|].
    apply Z.lt_le_trans with (2 ^ 64); [lia|].
    apply Z.pow_le_mono_r; lia.
Qed.

Lemma bits_of_0x5555 i :
  0 <= i -> Z.testbit 0x5555555555555555 i = Z.even i && (i <? 64).
Proof.
  intros Hi. destruct (Z.ltb_spec i 64) as [Hlt|Hge].
  - rewrite andb_true_r.
    assert (Hn : exists k, (k < 64)%nat /\ i = Z.of_nat k)
      by (exists (Z.to_nat i); lia).
    destruct Hn as (k & Hk & ->).
    do 64 (destruct k as [|k]; [reflexivity|]). lia.
  - rewrite andb_false_r. apply Z.bits_above_log2; [lia|].
    apply Z.log2_lt_pow2; [lia|].
    apply Z.lt_le_trans with (2 ^ 64); [lia|].
    apply Z.pow_le_mono_r; lia.
Qed.

Lemma testbit_mod_pow2 a n i :
  0 <= n -> 0 <= i -> Z.testbit (a mod 2 ^ n) i = Z.testbit a i && (i <? n).
Proof.
  intros Hn Hi. destruct (Z.ltb_spec i n).
  - rewrite andb_true_r. by apply Z.mod_pow2_bits_low.
  - rewrite andb_false_r. by apply Z.mod_pow2_bits_high.
Qed.

Lemma forallb_true_Forall {A} (f : A -> bool) (l : list A) :
  forallb f l = true <-> Forall (fun x => f x = true) l.
Proof.
  induction l as [|x l IH]; cbn.
  - split; [constructor|done].
  - rewrite andb_true_iff, Forall_cons, IH. done.
Qed.

Lemma forallb_false_Exists {A} (f : A -> bool) (l : list A) :
  forallb f l = false <-> Exists (fun x => f x = false) l.
Proof.
  induction l as [|x l IH]; cbn.
  - split; [done|by intros ?%Exists_nil].
  - rewrite andb_false_iff, Exists_cons, IH. done.
Qed.

(** C2 (as the code has it): run on a live state, [unconstrained_check]
    returns true exactly when each of its five probe values is reported
    satisfiable for [ast == v] under the state's constraints, and false
    otherwise; the values are 0, [2^n - 1], and the three 64-bit constants
    [0xAAAAAAAAAAAAAAAA] (bits 1010...10), [0x5555555555555555] (bits
    0101...01) and [0x99AABBCCDDEEEE11], each reduced modulo [2^n]. Up to
    width 64 the third and fourth are the alternating patterns of width [n];
    no bit from position 64 on is set in them. *)
Theorem unconstrained_check_five_probes
    (se : Solver) (state : loc) (ast : Ast) (h : Heap) (st : SimState) :
  h !! state = Some st ->
  let n := Z.of_N (ast_size ast) in
  let probes := [ 0; 2 ^ n - 1;
                  0xAAAAAAAAAAAAAAAA mod 2 ^ n;
                  0x5555555555555555 mod 2 ^ n;
                  0x99AABBCCDDEEEE11 mod 2 ^ n ] in
  (fst (unconstrained_check se state ast h) = Ok true <->
   Forall (fun v => se_satisfiable se st [CEq ast v] = true) probes) /\
  (fst (unconstrained_check se state ast h) = Ok false <->
   Exists (fun v => se_satisfiable se st [CEq ast v] = false) probes) /\
  (forall i, 0 <= i ->
     Z.testbit (0xAAAAAAAAAAAAAAAA mod 2 ^ n) i = Z.odd i && (i <? 64) && (i <? n) /\
     Z.testbit (0x5555555555555555 mod 2 ^ n) i = Z.even i && (i <? 64) && (i <? n)) /\
  (forall k, 0 <= k < 8 ->
     nibble 0x99AABBCCDDEEEE11 (2 * k) = nibble 0x99AABBCCDDEEEE11 (2 * k + 1)).
Proof.
  intros Hst n probes.
  rewrite (unconstrained_check_run se state ast h st Hst). cbn [fst].
  change (probe_values (ast_size ast)) with probes.
  split_and!.
  - rewrite <- forallb_true_Forall. split; congruence.
  - rewrite <- forallb_false_Exists. split; congruence.
  - intros i Hi. subst n.
    rewrite !testbit_mod_pow2, bits_of_0xAAAA, bits_of_0x5555 by lia. done.
  - intros k Hk.
    assert (Hcases : k = 0 \/ k = 1 \/ k = 2 \/ k = 3 \/
                     k = 4 \/ k = 5 \/ k = 6 \/ k = 7) by lia.
    destruct Hcases as [->|[->|[->|[->|[->|[->|[->| ->]]]]]]]; reflexivity.
Qed.

Lemma unconstrained_check_five_probes_witness :
  [Toy.symbolic64] !! 0%nat = Some Toy.symbolic64 /\
  (fst (unconstrained_check Toy.solver 0%nat (BVS "sreg_rax-_7_64" 64) [Toy.symbolic64])
   = Ok true <->
   Forall (fun v => se_satisfiable Toy.solver Toy.symbolic64
                      [CEq (BVS "sreg_rax-_7_64" 64) v] = true)
     [ 0; 2 ^ 64 - 1; 0xAAAAAAAAAAAAAAAA mod 2 ^ 64;
       0x5555555555555555 mod 2 ^ 64; 0x99AABBCCDDEEEE11 mod 2 ^ 64 ]).
Proof.
  split; [reflexivity|].
  exact (proj1 (unconstrained_check_five_probes Toy.solver 0%nat
                  (BVS "sreg_rax-_7_64" 64) [Toy.symbolic64] Toy.symbolic64 eq_refl)).
Defined.

(** The claim as worded fails twice. At width 64, an expression whose only
    possible values are the five the code probes passes the check, although
    none of its possible values has all neighbouring nibbles different. At
    width 128 such an expression passes too, although the 128-bit pattern
    [1010...] is not among its values. *)
Lemma unconstrained_check_five_probes_counterexample :
  ~ (fst (unconstrained_check (solver_of_values (probe_values 64)) 0%nat
            (BVS "x" 64) [Toy.blank64]) = Ok true <->
     spec_five_probes (solver_of_values (probe_values 64)) Toy.blank64 (BVS "x" 64)) /\
  ~ (fst (unconstrained_check (solver_of_values (probe_values 128)) 0%nat
            (BVS "x" 128) [Toy.blank64]) = Ok true <->
     spec_five_probes (solver_of_values (probe_values 128)) Toy.blank64 (BVS "x" 128)).
Proof.
  split.
  - intros [Hcode _].
    destruct Hcode as (v & _ & Hdiff & Hsat); [vm_compute; reflexivity|].
    apply Forall_forall with (x := v) in Hsat; [|set_solver].
    cbn in Hsat. rewrite andb_true_r in Hsat. apply bool_decide_eq_true in Hsat.
    specialize (Hdiff 0). cbn in Hdiff.
    assert (Hsame : nibble v 0 = nibble v 1).
    { repeat (apply elem_of_cons in Hsat as [->|Hsat]; [vm_compute; reflexivity|]).
      by apply elem_of_nil in Hsat. }
    apply Hdiff; [lia|lia|done].
  - intros [Hcode _].
    destruct Hcode as (v & _ & _ & Hsat); [vm_compute; reflexivity|].
    apply Forall_forall with (x := spec_pattern_1010 128) in Hsat; [|set_solver].
    vm_compute in Hsat. discriminate.
Qed.

(** ** Effects on the heap *)

Section Keeps.

Context {A : Type}.
Implicit Types (n : nat) (m : M A) (Q : A -> Prop).

Lemma keeps_ret n (a : A) Q : Q a -> keeps n (ret a) Q.
Proof. intros Ha h Hn. cbn. done. Qed.

Lemma keeps_raise n e Q : keeps n (raise e : M A) Q.
Proof. intros h Hn. cbn. done. Qed.

Lemma keeps_weaken n m Q Q' :
  keeps n m Q -> (forall a, Q a -> Q' a) -> keeps n m Q'.
Proof.
  intros Hm Himp h Hn. destruct (Hm h Hn) as (? & ? & HQ).
  split_and!; [done..|]. destruct (m h).1; [by apply Himp|done].
Qed.

Lemma keeps_bind {B : Type} n (m' : M B) (k : B -> M A) (R : B -> Prop) Q :
  keeps n m' R -> (forall b, R b -> keeps n (k b) Q) -> keeps n (bind m' k) Q.
Proof.
  intros Hm Hk h Hn. unfold bind.
  destruct (Hm h Hn) as (Hlen & Htake & HR).
  destruct (m' h) as [[b|e] h']; cbn in *; [|done].
  destruct (Hk b HR h' Hlen) as (? & ? & ?).
  split_and!; [done|congruence|done].
Qed.

Lemma keeps_try_except n m catches handler Q :
  keeps n m Q -> keeps n handler Q -> keeps n (try_except m catches handler) Q.
Proof.
  intros Hm Hh h Hn. unfold try_except.
  destruct (Hm h Hn) as (Hlen & Htake & HQ).
  destruct (m h) as [[a|e] h']; cbn in *; [done|].
  destruct (catches e); [|done].
  destruct (Hh h' Hlen) as (? & ? & ?). split_and!; [done|congruence|done].
Qed.

Lemma keeps_lift_option n (o : option A) e Q :
  (forall a, o = Some a -> Q a) -> keeps n (lift_option o e) Q.
Proof.
  intros HQ. destruct o as [a|]; [apply keeps_ret; by apply HQ|apply keeps_raise].
Qed.

Lemma keeps_index n (l : list A) i : keeps n (index l i) (fun a => a ∈ l).
Proof.
  apply keeps_lift_option. intros a Ha. by apply list_elem_of_lookup_2 in Ha.
Qed.

End Keeps.

Lemma keeps_deref n l : keeps n (deref l) (fun _ => True).
Proof. intros h Hn. unfold deref. destruct (h !! l); cbn; done. Qed.

Lemma keeps_alloc n st : keeps n (alloc st) (fun l => (n <= l)%nat).
Proof.
  intros h Hn. cbn. rewrite length_app. split_and!; [lia| |done].
  by rewrite take_app_le.
Qed.

Lemma keeps_copy n state : keeps n (copy state) (fun l => (n <= l)%nat).
Proof.
  unfold copy. eapply keeps_bind; [apply keeps_deref|]. intros st _. apply keeps_alloc.
Qed.

Lemma keeps_modify n l f : (n <= l)%nat -> keeps n (modify l f) (fun _ => True).
Proof.
  intros Hl h Hn. unfold modify. destruct (h !! l); cbn; [|done].
  rewrite length_insert. split_and!; [done| |done].
  by apply take_insert_ge.
Qed.

Lemma keeps_registers_load n state reg :
  keeps n (registers_load state reg) (fun _ => True).
Proof.
  unfold registers_load. eapply keeps_bind; [apply keeps_deref|].
  intros st _. by apply keeps_lift_option.
Qed.

Lemma keeps_add_constraints n state c :
  (n <= state)%nat -> keeps n (add_constraints state c) (fun _ => True).
Proof. apply keeps_modify. Qed.

Lemma keeps_any_n_int n se state ast k :
  keeps n (any_n_int se state ast k) (fun _ => True).
Proof.
  unfold any_n_int. eapply keeps_bind; [apply keeps_deref|].
  intros st _. by apply keeps_ret.
Qed.

(** The check only asks the solver. *)
Lemma unconstrained_check_heap se state ast h :
  (unconstrained_check se state ast h).2 = h.
Proof.
  destruct (h !! state) as [st|] eqn:Hst.
  - by rewrite (unconstrained_check_run _ _ _ _ _ Hst).
  - by rewrite (unconstrained_check_dangling _ _ _ _ Hst).
Qed.

Lemma keeps_unconstrained_check n se state ast :
  keeps n (unconstrained_check se state ast) (fun _ => True).
Proof.
  intros h Hn. rewrite unconstrained_check_heap.
  split_and!; [done..|]. by destruct (unconstrained_check se state ast h).1.
Qed.

(** ** Controllability Prober *)

Lemma keeps_pin_registers n constrained_copy test_val regs :
  (n <= constrained_copy)%nat ->
  keeps n (pin_registers constrained_copy test_val regs) (fun _ => True).
Proof.
  intros Hcc. induction regs as [|reg rest IH]; cbn [pin_registers].
  - by apply keeps_ret.
  - eapply keeps_bind; [apply keeps_registers_load|]. intros v _.
    apply keeps_bind with (R := fun _ => True); [|intros; apply IH].
    destruct (negb (symbolic v)); [by apply keeps_ret|].
    eapply keeps_bind; [apply keeps_registers_load|]. intros v' _.
    by apply keeps_add_constraints.
Qed.

Lemma keeps_probe_registers n se test_state ast test_val reg_deps todo controllers :
  keeps n (probe_registers se test_state ast test_val reg_deps todo controllers)
    (fun l => forall reg, reg ∈ l -> reg ∈ controllers \/ reg ∈ todo).
Proof.
  revert controllers.
  induction todo as [|reg rest IH]; intros controllers; cbn [probe_registers].
  - apply keeps_ret. by left.
  - eapply keeps_bind; [apply keeps_copy|]. intros cc Hcc.
    eapply keeps_bind; [by apply keeps_pin_registers|]. intros _ _.
    eapply keeps_bind; [apply keeps_unconstrained_check|]. intros free _.
    eapply keeps_weaken; [apply IH|]. cbn beta.
    intros l Hl r Hr. destruct (Hl r Hr) as [Hin|Hin]; [|set_solver].
    destruct free; [|by left].
    apply elem_of_app in Hin as [Hin|Hin]; [by left|set_solver].
Qed.

Lemma keeps_get_ast_controllers n se test_state ast reg_deps :
  keeps n (get_ast_controllers se test_state ast reg_deps)
    (fun l => forall reg, reg ∈ l -> reg ∈ reg_deps).
Proof.
  unfold get_ast_controllers.
  eapply keeps_bind; [apply keeps_deref|]. intros st _.
  destruct (negb (symbolic ast)); [apply keeps_ret; set_solver|].
  eapply keeps_bind; [apply keeps_copy|]. intros cc Hcc.
  eapply keeps_bind; [by apply keeps_pin_registers|]. intros _ _.
  eapply keeps_bind; [apply keeps_any_n_int|]. intros vals _.
  destruct (1 <? len vals); [apply keeps_ret; set_solver|].
  eapply keeps_weaken; [apply keeps_probe_registers|]. cbn beta.
  intros l Hl r Hr. destruct (Hl r Hr) as [Hin|Hin]; [set_solver|done].
Qed.

(** C8: every register name in the sequence [get_ast_controllers] returns is
    a member of the dependency collection it was given. *)
Theorem get_ast_controllers_within_deps
    (se : Solver) (test_state : loc) (ast : Ast) (reg_deps : list string)
    (h : Heap) (controllers : list string) :
  fst (get_ast_controllers se test_state ast reg_deps h) = Ok controllers ->
  forall reg, reg ∈ controllers -> reg ∈ reg_deps.
Proof.
  intros Hres.
  destruct (keeps_get_ast_controllers 0 se test_state ast reg_deps h) as (_ & _ & HQ);
    [lia|].
  change (get_ast_controllers se test_state ast reg_deps h).1
    with (fst (get_ast_controllers se test_state ast reg_deps h)) in HQ.
  by rewrite Hres in HQ.
Qed.

Lemma get_ast_controllers_within_deps_witness :
  fst (get_ast_controllers Toy.solver 0%nat (BVS "sreg_rax-_7_64" 64)
         ["rax"; "rbx"] [Toy.symbolic64]) = Ok ["rax"] /\
  forall reg, reg ∈ ["rax"] -> reg ∈ ["rax"; "rbx"].
Proof.
  split; [vm_compute; reflexivity|].
  apply (get_ast_controllers_within_deps Toy.solver 0%nat (BVS "sreg_rax-_7_64" 64)
           ["rax"; "rbx"] [Toy.symbolic64] ["rax"]).
  vm_compute; reflexivity.
Defined.

Lemma sentinel_eq bits :
  sentinel bits = 0x4141414141414141 mod (2 * 2 ^ Z.of_N bits).
Proof. unfold sentinel. rewrite Z.shiftl_mul_pow2 by lia. reflexivity. Qed.

Lemma registers_load_run state reg h st v :
  h !! state = Some st -> registers st !! reg = Some v ->
  registers_load state reg h = (Ok v, h).
Proof.
  intros Hst Hv. unfold registers_load.
  by rewrite bind_run, (deref_run _ _ _ Hst), Hv.
Qed.

Lemma modify_run state f h st :
  h !! state = Some st -> modify state f h = (Ok tt, <[ state := f st ]> h).
Proof. intros Hst. unfold modify. by rewrite Hst. Qed.

Lemma pin_constraints_cons st test_val reg rest :
  pin_constraints st test_val (reg :: rest)
  = match registers st !! reg with
    | Some v => if symbolic v then CEq v test_val :: pin_constraints st test_val rest
                else pin_constraints st test_val rest
    | None => pin_constraints st test_val rest
    end.
Proof.
  unfold pin_constraints. cbn [omap list_omap].
  destruct (registers st !! reg) as [v|]; cbn; [|done]. by destruct (symbolic v).
Qed.

Lemma pin_constraints_elem st test_val regs c :
  c ∈ pin_constraints st test_val regs <->
  exists reg v, reg ∈ regs /\ registers st !! reg = Some v /\
                symbolic v = true /\ c = CEq v test_val.
Proof.
  unfold pin_constraints. rewrite list_elem_of_omap. split.
  - intros (reg & Hreg & Hc).
    destruct (registers st !! reg) as [v|] eqn:Hv; [|done]. cbn in Hc.
    destruct (symbolic v) eqn:Hsym; [|done]. injection Hc as <-. by exists reg, v.
  - intros (reg & v & Hreg & Hv & Hsym & ->). exists reg. split; [done|].
    rewrite Hv. cbn. by rewrite Hsym.
Qed.

(** The pinning loop, run on a copy holding [st]: the copy ends up with the
    constraints of [st] followed by the pins. *)
Lemma pin_registers_run constrained_copy test_val regs h st0 st :
  h !! constrained_copy = Some st ->
  registers st = registers st0 ->
  Forall (fun reg => is_Some (registers st0 !! reg)) regs ->
  pin_registers constrained_copy test_val regs h
  = (Ok tt, <[ constrained_copy :=
               with_constraints (fun cs => cs ++ pin_constraints st0 test_val regs) st ]> h).
Proof.
  intros Hst Hregs Hall. revert h st Hst Hregs.
  induction Hall as [|reg rest [v Hv] _ IH]; intros h st Hst Hregs.
  - cbn. f_equal. symmetry. rewrite <- (list_insert_id h constrained_copy st) at 2 by done.
    f_equal. destruct st. unfold with_constraints. cbn. by rewrite app_nil_r.
  - cbn [pin_registers]. rewrite pin_constraints_cons, Hv.
    assert (Hv' : registers st !! reg = Some v) by by rewrite Hregs.
    rewrite bind_run, (registers_load_run _ _ _ _ _ Hst Hv').
    destruct (symbolic v); cbn [negb].
    + rewrite bind_run, bind_run, (registers_load_run _ _ _ _ _ Hst Hv').
      unfold add_constraints. rewrite (modify_run _ _ _ _ Hst).
      rewrite (IH _ (with_constraints (fun cs => cs ++ [CEq v test_val]) st)).
      * rewrite list_insert_insert_eq. do 2 f_equal.
        destruct st. unfold with_constraints. cbn. by rewrite <- app_assoc.
      * apply list_lookup_insert_eq. by eapply lookup_lt_Some.
      * done.
    + rewrite bind_ret_run. by apply IH.
Qed.

Lemma bind_Ok {A B} (m : M A) (k : A -> M B) h a h' :
  m h = (Ok a, h') -> bind m k h = k a h'.
Proof. intros Hm. unfold bind. by rewrite Hm. Qed.

Lemma copy_run state h st :
  h !! state = Some st -> copy state h = (Ok (length h), h ++ [st]).
Proof. intros Hst. unfold copy. by rewrite (bind_Ok _ _ _ _ _ (deref_run _ _ _ Hst)). Qed.

Lemma pin_registers_copy_run test_val regs h st :
  Forall (fun reg => is_Some (registers st !! reg)) regs ->
  pin_registers (length h) test_val regs (h ++ [st])
  = (Ok tt, h ++ [pinned st test_val regs]).
Proof.
  intros Hall.
  rewrite (pin_registers_run (length h) test_val regs (h ++ [st]) st st);
    [|by apply list_lookup_middle|done|done].
  f_equal. rewrite insert_app_r_alt, Nat.sub_diag by lia. done.
Qed.

(** The probing loop, run with the state of content [st] behind
    [test_state]: one fork per register to try, and the registers whose fork
    passes the check appended to [controllers]. *)
Lemma probe_registers_run se test_state ast test_val reg_deps st todo controllers h :
  h !! test_state = Some st ->
  Forall (fun reg => is_Some (registers st !! reg)) reg_deps ->
  probe_registers se test_state ast test_val reg_deps todo controllers h
  = (Ok (controllers
         ++ filter (fun reg => passes_check se (pinned_but st test_val reg_deps reg) ast
                               = true) todo),
     h ++ (pinned_but st test_val reg_deps <$> todo)).
Proof.
  intros Hst Hall. revert controllers h Hst.
  induction todo as [|reg rest IH]; intros controllers h Hst; cbn [probe_registers].
  - cbn. by rewrite !app_nil_r.
  - erewrite bind_Ok; [|by apply copy_run].
    erewrite bind_Ok.
    2: { apply pin_registers_copy_run.
         apply Forall_forall. intros r Hr%list_elem_of_filter.
         rewrite Forall_forall in Hall. apply Hall. tauto. }
    fold (pinned_but st test_val reg_deps reg).
    erewrite bind_Ok.
    2: { apply unconstrained_check_run. by apply list_lookup_middle. }
    fold (passes_check se (pinned_but st test_val reg_deps reg) ast).
    rewrite IH by (by apply lookup_app_l_Some).
    rewrite filter_cons. cbn [fmap list_fmap].
    destruct (passes_check se (pinned_but st test_val reg_deps reg) ast) eqn:Hfree.
    + rewrite decide_True by done. by rewrite <- !app_assoc.
    + rewrite decide_False by done. by rewrite <- !app_assoc.
Qed.

(** C3: on a symbolic expression, [get_ast_controllers] forks the state -
    the fork is a new object, the objects that exist stay as they are - and
    adds to the fork, for every dependency register whose value is symbolic,
    the constraint that this value equals
    [0x4141414141414141 mod (2 * 2^bits)], and nothing else; when the solver
    then still lists two or more values of the expression on that fork, the
    function returns the empty controller list, with that fork as its only
    effect. *)
Theorem get_ast_controllers_consistency_guard
    (se : Solver) (test_state : loc) (ast : Ast) (reg_deps : list string)
    (h : Heap) (st : SimState) :
  h !! test_state = Some st ->
  Forall (fun reg => is_Some (registers st !! reg)) reg_deps ->
  let test_val := 0x4141414141414141 mod (2 * 2 ^ Z.of_N (bits (state_arch st))) in
  let fork := pinned st test_val reg_deps in
  (forall c, c ∈ constraints fork <->
             c ∈ constraints st \/
             exists reg v, reg ∈ reg_deps /\ registers st !! reg = Some v /\
                           symbolic v = true /\ c = CEq v test_val) /\
  (symbolic ast = true ->
   exists forks,
     snd (get_ast_controllers se test_state ast reg_deps h) = h ++ fork :: forks) /\
  (symbolic ast = true ->
   1 < len (se_any_n_int se fork ast 2) ->
   get_ast_controllers se test_state ast reg_deps h = (Ok [], h ++ [fork])) /\
  (1 < len (se_any_n_int se fork ast 2) ->
   fst (get_ast_controllers se test_state ast reg_deps h) = Ok []).
Proof.
  intros Hst Hall test_val fork.
  assert (Hrun : symbolic ast = true ->
            get_ast_controllers se test_state ast reg_deps h
            = (if 1 <? len (se_any_n_int se fork ast 2) then ret []
               else probe_registers se test_state ast test_val reg_deps reg_deps [])
                (h ++ [fork])).
  { intros Hsym. unfold get_ast_controllers.
    rewrite (bind_Ok _ _ _ _ _ (deref_run _ _ _ Hst)), sentinel_eq, Hsym.
    cbn [negb]. fold test_val.
    rewrite (bind_Ok _ _ _ _ _ (copy_run _ _ _ Hst)).
    rewrite (bind_Ok _ _ _ _ _ (pin_registers_copy_run test_val reg_deps h st Hall)).
    fold fork. unfold any_n_int.
    rewrite (bind_Ok _ _ (h ++ [fork]) (se_any_n_int se fork ast 2) (h ++ [fork]));
      [done|].
    by rewrite (bind_Ok _ _ _ _ _ (deref_run (length h) (h ++ [fork]) fork
                                     (list_lookup_middle h [] fork _ eq_refl))). }
  split_and!.
  - intros c. unfold fork, pinned. cbn. rewrite elem_of_app, pin_constraints_elem. done.
  - intros Hsym. rewrite (Hrun Hsym).
    destruct (1 <? len (se_any_n_int se fork ast 2)).
    + by exists [].
    + rewrite (probe_registers_run se test_state ast test_val reg_deps st)
        by (done || by apply lookup_app_l_Some).
      eexists. cbn [snd]. by rewrite <- app_assoc.
  - intros Hsym Hmany. rewrite (Hrun Hsym).
    apply Z.ltb_lt in Hmany. by rewrite Hmany.
  - intros Hmany. destruct (symbolic ast) eqn:Hsym.
    + rewrite (Hrun eq_refl). apply Z.ltb_lt in Hmany. by rewrite Hmany.
    + unfold get_ast_controllers.
      by rewrite (bind_Ok _ _ _ _ _ (deref_run _ _ _ Hst)), Hsym.
Qed.

Lemma get_ast_controllers_consistency_guard_witness :
  [Toy.symbolic64] !! 0%nat = Some Toy.symbolic64 /\
  Forall (fun reg => is_Some (registers Toy.symbolic64 !! reg)) ["rax"; "rbx"] /\
  1 < len (se_any_n_int Toy.solver
             (pinned Toy.symbolic64 (0x4141414141414141 mod (2 * 2 ^ 64)) ["rax"; "rbx"])
             (BVS "symbolic_stack_3_12800" 64) 2) /\
  get_ast_controllers Toy.solver 0%nat (BVS "symbolic_stack_3_12800" 64)
    ["rax"; "rbx"] [Toy.symbolic64]
  = (Ok [],
     [Toy.symbolic64;
      pinned Toy.symbolic64 (0x4141414141414141 mod (2 * 2 ^ 64)) ["rax"; "rbx"]]) /\
  constraints (pinned Toy.symbolic64 (0x4141414141414141 mod (2 * 2 ^ 64))
                 ["rax"; "rbx"])
  = [CEq (BVS "sreg_rax-_7_64" 64) 0x4141414141414141;
     CEq (BVS "sreg_rbx-_8_64" 64) 0x4141414141414141].
Proof.
  assert (Hregs : Forall (fun reg => is_Some (registers Toy.symbolic64 !! reg))
                    ["rax"; "rbx"]).
  { repeat constructor; vm_compute; eauto. }
  split; [reflexivity|]. split; [exact Hregs|]. split; [vm_compute; reflexivity|].
  split; [|vm_compute; reflexivity].
  apply (get_ast_controllers_consistency_guard Toy.solver 0%nat
           (BVS "symbolic_stack_3_12800" 64)
           ["rax"; "rbx"] [Toy.symbolic64] Toy.symbolic64 eq_refl Hregs).
  - reflexivity.
  - vm_compute; reflexivity.
Defined.

(** ** Stepper *)

Lemma keeps_new_paths n succs :
  keeps n (new_paths succs) (Forall (fun p => (n <= path_state p)%nat)).
Proof.
  induction succs as [|s rest IH]; cbn [new_paths].
  - by apply keeps_ret.
  - eapply keeps_bind; [apply keeps_alloc|]. intros l Hl.
    eapply keeps_bind; [apply IH|]. intros ps Hps.
    apply keeps_ret. by constructor.
Qed.

Lemma keeps_path_step n project p :
  keeps n (path_step project p)
    (fun r => Forall (fun p => (n <= path_state p)%nat) r.1 /\
              Forall (fun p => (n <= path_state p)%nat) r.2).
Proof.
  unfold path_step. eapply keeps_bind; [apply keeps_deref|]. intros st _.
  destruct (step project p st) as [e|succs unconstrained]; [apply keeps_raise|].
  eapply keeps_bind; [apply keeps_new_paths|]. intros ps Hps.
  eapply keeps_bind; [apply keeps_new_paths|]. intros us Hus.
  by apply keeps_ret.
Qed.

Lemma keeps_factory_path n project state :
  keeps n (factory_path project state) (fun _ => True).
Proof.
  unfold factory_path. eapply keeps_bind; [apply keeps_deref|].
  intros st _. by apply keeps_ret.
Qed.

(** The body only reads the state it is given; what it hands to the
    recursive call is a state the step has just created. *)
Lemma keeps_stepper_body n recurse project state path max_steps allow :
  (forall state' path' max_steps' allow',
      (n <= state')%nat ->
      keeps n (recurse state' path' max_steps' allow') (fun _ => True)) ->
  keeps n (stepper_body recurse project state path max_steps allow) (fun _ => True).
Proof.
  intros Hrec. unfold stepper_body.
  apply keeps_bind with (R := fun _ => True).
  { destruct path; [by apply keeps_ret|apply keeps_factory_path]. }
  intros p _. destruct (errored p); [apply keeps_raise|].
  eapply keeps_bind; [apply keeps_path_step|]. intros [ps us] [Hps Hus]. cbn [fst snd].
  destruct (negb _); [apply keeps_raise|].
  destruct (_ && _).
  - eapply keeps_bind; [apply keeps_index|]. intros s0 _.
    destruct (_ && _); [apply keeps_raise|].
    eapply keeps_bind; [apply keeps_index|]. intros s0' Hs0.
    eapply keeps_bind; [apply keeps_index|]. intros path0 _.
    apply Hrec. rewrite Forall_forall in Hps. by apply Hps.
  - destruct (_ && _); [apply keeps_raise|].
    eapply keeps_bind; [apply keeps_index|]. intros p' _. by apply keeps_ret.
Qed.

Lemma keeps_stepper_rec n depth project state path max_steps allow :
  (n <= state)%nat ->
  keeps n (step_to_unconstrained_successor_rec depth project state path max_steps allow)
    (fun _ => True).
Proof.
  revert state path max_steps allow.
  induction depth as [|depth IH]; intros state path max_steps allow Hstate;
    cbn [step_to_unconstrained_successor_rec];
    (apply keeps_try_except; [|apply keeps_raise]);
    (eapply keeps_bind; [by apply keeps_modify|]); intros _ _;
    apply keeps_stepper_body.
  - intros. apply keeps_raise.
  - intros. by apply IH.
Qed.

Lemma modify_heap state f h : (modify state f h).2 = alter f state h.
Proof.
  unfold modify. destruct (h !! state) as [st|] eqn:Hst; cbn.
  - apply list_eq. intros i. destruct (decide (i = state)) as [->|Hne].
    + rewrite list_lookup_insert_eq by by eapply lookup_lt_Some.
      by rewrite list_lookup_alter_eq, Hst.
    + by rewrite list_lookup_insert_ne, list_lookup_alter_ne.
  - apply list_eq. intros i. destruct (decide (i = state)) as [->|Hne].
    + by rewrite list_lookup_alter_eq, Hst.
    + by rewrite list_lookup_alter_ne.
Qed.

(** Of the objects present at the call, the Stepper changes the state it is
    given, by the option it adds, and nothing else. *)
Lemma stepper_rec_heap depth project state path max_steps allow h :
  take (length h)
    (step_to_unconstrained_successor_rec depth project state path max_steps allow h).2
  = alter enable_bypass state h.
Proof.
  assert (Hgen : forall recurse,
    (forall state' path' max_steps' allow',
        (length h <= state')%nat ->
        keeps (length h) (recurse state' path' max_steps' allow') (fun _ => True)) ->
    take (length h)
      (try_except
         (bind (modify state enable_bypass)
            (fun _ => stepper_body recurse project state path max_steps allow))
         is_UnsupportedSyscallError
         (raise (RopException "Does not get to a single unconstrained successor")) h).2
    = alter enable_bypass state h).
  { intros recurse Hrec. unfold try_except, bind.
    pose proof (modify_heap state enable_bypass h) as Hmod.
    destruct (modify state enable_bypass h) as [[[]|e] h1]; cbn in Hmod; subst h1.
    - destruct (keeps_stepper_body (length h) recurse project state path max_steps allow
                  Hrec (alter enable_bypass state h)) as (_ & Htake & _).
      { by rewrite length_alter. }
      destruct (stepper_body _ _ _ _ _ _ _) as [[p|e] h2]; cbn in *.
      + rewrite Htake. apply take_ge. by rewrite length_alter.
      + destruct (is_UnsupportedSyscallError e); cbn;
          rewrite Htake; apply take_ge; by rewrite length_alter.
    - destruct (is_UnsupportedSyscallError e); cbn;
        apply take_ge; by rewrite length_alter. }
  destruct depth as [|depth]; cbn [step_to_unconstrained_successor_rec]; apply Hgen.
  - intros. apply keeps_raise.
  - intros. by apply keeps_stepper_rec.
Qed.

(** C7 (as the code has it): [get_ast_controllers] and [unconstrained_check]
    leave every state object that exists at the call as it is - they
    constrain forks only; [step_to_unconstrained_successor] adds the option
    [BYPASS_UNSUPPORTED_SYSCALL] to the state object it is given and changes
    no other existing object. *)
Theorem probes_keep_states_stepper_enables_bypass
    (se : Solver) (project : Project) (state : loc) (ast : Ast)
    (reg_deps : list string) (path : option Path) (max_steps : Z)
    (allow_simprocedures : bool) (h : Heap) :
  take (length h) (snd (get_ast_controllers se state ast reg_deps h)) = h /\
  snd (unconstrained_check se state ast h) = h /\
  take (length h)
    (snd (step_to_unconstrained_successor project state path max_steps
            allow_simprocedures h))
  = alter enable_bypass state h.
Proof.
  split_and!.
  - destruct (keeps_get_ast_controllers (length h) se state ast reg_deps h)
      as (_ & Htake & _); [done|].
    rewrite Htake. by apply take_ge.
  - apply unconstrained_check_heap.
  - apply stepper_rec_heap.
Qed.

(** The entry state built by [make_initial_state] does not carry the option;
    after one call of the Stepper on it, the same object does. *)
Lemma stepper_mutates_state_counterexample :
  let project := Toy.project Toy.steps in
  let h := snd (make_initial_state project 100 []) in
  let h' := snd (step_to_unconstrained_successor project 0%nat None 2 false h) in
  h' !! 0%nat <> h !! 0%nat.
Proof.
  intros project h h' Heq.
  assert (Hopt : (fun st => bool_decide ("BYPASS_UNSUPPORTED_SYSCALL" ∈ options st))
                   <$> h' !! 0%nat
                 = (fun st => bool_decide ("BYPASS_UNSUPPORTED_SYSCALL" ∈ options st))
                   <$> h !! 0%nat)
    by by rewrite Heq.
  vm_compute in Hopt. discriminate.
Qed.

Lemma new_paths_run succs h :
  exists ps h', new_paths succs h = (Ok ps, h') /\
                length ps = length succs /\
                Forall2 (fun p s => addr p = successor_addr s /\
                                    error p = successor_error s) ps succs.
Proof.
  revert h. induction succs as [|s rest IH]; intros h; cbn [new_paths].
  - by exists [], h.
  - destruct (IH (h ++ [successor_state s])) as (ps & h' & Hrun & Hlen & Hall).
    exists (mkPath (length h) (successor_addr s) (successor_error s) :: ps), h'.
    split_and!; [|cbn; lia|by constructor].
    rewrite (bind_Ok _ _ h (length h) (h ++ [successor_state s])) by done.
    by rewrite (bind_Ok _ _ _ _ _ Hrun).
Qed.

Lemma path_step_run project p h st succs unconstrained :
  h !! path_state p = Some st ->
  step project p st = Stepped succs unconstrained ->
  exists ps us h',
    path_step project p h = (Ok (ps, us), h') /\
    length ps = length succs /\ length us = length unconstrained.
Proof.
  intros Hst Hstep. unfold path_step.
  rewrite (bind_Ok _ _ _ _ _ (deref_run _ _ _ Hst)), Hstep.
  destruct (new_paths_run succs h) as (ps & h1 & Hps & Hlps & _).
  destruct (new_paths_run unconstrained h1) as (us & h2 & Hus & Hlus & _).
  exists ps, us, h2. split_and!; [|done..].
  by rewrite (bind_Ok _ _ _ _ _ Hps), (bind_Ok _ _ _ _ _ Hus).
Qed.

Section StepperRuns.

Variables (recurse : loc -> option Path -> Z -> bool -> M Path)
          (project : Project) (state : loc) (path : option Path)
          (max_steps : Z) (allow : bool) (h : Heap) (st pst : SimState)
          (succs unconstrained : list Successor).

Let p := stepped_path project state path st.
Let h1 := <[ state := enable_bypass st ]> h.

Hypothesis Hstate : h !! state = Some st.
Hypothesis Hnoerror : error p = None.
Hypothesis Hpstate : h1 !! path_state p = Some pst.
Hypothesis Hstep : step project p pst = Stepped succs unconstrained.

(** Up to the step: the option is added, the path is chosen and found
    without error, and the engine is asked for its successors. *)
Lemma stepper_reaches_step (k : list Path * list Path -> M Path) :
  exists ps us h2,
    length ps = length succs /\ length us = length unconstrained /\
    bind (modify state enable_bypass)
      (fun _ =>
         bind (match path with
               | None => factory_path project state
               | Some path => ret path
               end)
           (fun p => if errored p
                     then raise (RopException (default "" (error p)))
                     else bind (path_step project p) k)) h
    = k (ps, us) h2.
Proof.
  destruct (path_step_run project p h1 pst succs unconstrained Hpstate Hstep)
    as (ps & us & h2 & Hrun & Hlps & Hlus).
  exists ps, us, h2. split_and!; [done..|].
  rewrite (bind_Ok _ _ _ _ _ (modify_run _ _ _ _ Hstate)). fold h1.
  assert (Hp : match path with
               | None => factory_path project state
               | Some path => ret path
               end h1 = (Ok p, h1)).
  { subst p. unfold stepped_path. destruct path; [done|]. unfold factory_path.
    rewrite (bind_Ok _ _ h1 (enable_bypass st) h1); [done|].
    apply deref_run. subst h1. apply list_lookup_insert_eq.
    by eapply lookup_lt_Some. }
  rewrite (bind_Ok _ _ _ _ _ Hp). unfold errored. rewrite Hnoerror.
  by rewrite (bind_Ok _ _ _ _ _ Hrun).
Qed.

Lemma stepper_body_ambiguous :
  (length succs + length unconstrained)%nat <> 1%nat ->
  fst (try_except
         (bind (modify state enable_bypass)
            (fun _ => stepper_body recurse project state path max_steps allow))
         is_UnsupportedSyscallError
         (raise (RopException "Does not get to a single unconstrained successor")) h)
  = Raise (RopException "Does not get to a single successor").
Proof.
  intros Hcount. unfold try_except, stepper_body.
  match goal with
  | |- context [bind (path_step project _) ?k] =>
      destruct (stepper_reaches_step k) as (ps & us & h2 & Hlps & Hlus & ->)
  end.
  cbn [fst snd]. unfold len. rewrite Hlps, Hlus.
  replace (Z.of_nat (length succs) + Z.of_nat (length unconstrained) =? 1)
    with false by (symmetry; apply Z.eqb_neq; lia).
  reflexivity.
Qed.

Lemma stepper_body_budget_exhausted :
  length succs = 1%nat -> unconstrained = [] -> max_steps = 0 ->
  fst (try_except
         (bind (modify state enable_bypass)
            (fun _ => stepper_body recurse project state path max_steps allow))
         is_UnsupportedSyscallError
         (raise (RopException "Does not get to a single unconstrained successor")) h)
  = Raise (RopException "Does not get to an unconstrained successor").
Proof.
  intros Hone Hnil Hzero. unfold try_except, stepper_body.
  match goal with
  | |- context [bind (path_step project _) ?k] =>
      destruct (stepper_reaches_step k) as (ps & us & h2 & Hlps & Hlus & ->)
  end.
  cbn [fst snd]. unfold len. rewrite Hlps, Hlus, Hone, Hnil, Hzero.
  reflexivity.
Qed.

End StepperRuns.

(** C5: when the step of the starting path yields any number of successors,
    constrained and unconstrained together, other than exactly one, the
    Stepper fails with the [RopException] "Does not get to a single
    successor" (AmbiguousSuccessor); so it does for two successors. *)
Theorem stepper_ambiguous_successor
    (project : Project) (state : loc) (path : option Path) (max_steps : Z)
    (allow_simprocedures : bool) (h : Heap) (st pst : SimState)
    (succs unconstrained : list Successor) :
  h !! state = Some st ->
  error (stepped_path project state path st) = None ->
  <[ state := enable_bypass st ]> h
    !! path_state (stepped_path project state path st) = Some pst ->
  step project (stepped_path project state path st) pst = Stepped succs unconstrained ->
  (length succs + length unconstrained)%nat <> 1%nat ->
  fst (step_to_unconstrained_successor project state path max_steps
         allow_simprocedures h)
  = Raise (RopException "Does not get to a single successor").
Proof.
  intros Hst Herr Hpst Hstep Hcount. unfold step_to_unconstrained_successor.
  destruct (Z.to_nat max_steps); cbn [step_to_unconstrained_successor_rec];
    by eapply stepper_body_ambiguous.
Qed.

Lemma stepper_ambiguous_successor_witness :
  fst (step_to_unconstrained_successor (Toy.project Toy.steps) 0%nat
         (Some (mkPath 0%nat 0x400100 None)) 2 false [Toy.blank64])
  = Raise (RopException "Does not get to a single successor").
Proof.
  apply (stepper_ambiguous_successor (Toy.project Toy.steps) 0%nat
           (Some (mkPath 0%nat 0x400100 None)) 2 false [Toy.blank64]
           Toy.blank64 (enable_bypass Toy.blank64)
           [Toy.successor_at 0x400104; Toy.successor_at 0x400108] []).
  - reflexivity.
  - reflexivity.
  - reflexivity.
  - reflexivity.
  - cbn. lia.
Defined.

(** C6: when the step of the starting path yields a single constrained
    successor and no unconstrained one, and the step budget is zero, the
    Stepper fails with the [RopException] "Does not get to an unconstrained
    successor" (BudgetExhausted). *)
Theorem stepper_budget_exhausted
    (project : Project) (state : loc) (path : option Path)
    (allow_simprocedures : bool) (h : Heap) (st pst : SimState)
    (successor : Successor) :
  h !! state = Some st ->
  error (stepped_path project state path st) = None ->
  <[ state := enable_bypass st ]> h
    !! path_state (stepped_path project state path st) = Some pst ->
  step project (stepped_path project state path st) pst = Stepped [successor] [] ->
  fst (step_to_unconstrained_successor project state path 0 allow_simprocedures h)
  = Raise (RopException "Does not get to an unconstrained successor").
Proof.
  intros Hst Herr Hpst Hstep. unfold step_to_unconstrained_successor.
  cbn [Z.to_nat step_to_unconstrained_successor_rec].
  by eapply stepper_body_budget_exhausted.
Qed.

Lemma stepper_budget_exhausted_witness :
  fst (step_to_unconstrained_successor (Toy.project Toy.steps) 0%nat None 0 false
         [Toy.blank64])
  = Raise (RopException "Does not get to an unconstrained successor").
Proof.
  apply (stepper_budget_exhausted (Toy.project Toy.steps) 0%nat None false
           [Toy.blank64] Toy.blank64 (enable_bypass Toy.blank64)
           (Toy.successor_at 0x400004)); reflexivity.
Defined.

(** *** The bound on the nesting is never the reason of a failure *)

Lemma bind_ext {A B} (m : M A) (k1 k2 : A -> M B) h :
  (forall a h', k1 a h' = k2 a h') -> bind m k1 h = bind m k2 h.
Proof. intros Hk. unfold bind. destruct (m h) as [[a|e] h']; [apply Hk|done]. Qed.

Lemma stepper_body_ext recurse1 recurse2 project state path max_steps allow h :
  (0 < max_steps ->
   forall state' path' h',
     recurse1 state' path' (max_steps - 1) allow h'
     = recurse2 state' path' (max_steps - 1) allow h') ->
  stepper_body recurse1 project state path max_steps allow h
  = stepper_body recurse2 project state path max_steps allow h.
Proof.
  intros Hrec. unfold stepper_body.
  apply bind_ext. intros p h1. destruct (errored p); [done|].
  apply bind_ext. intros stepped h2. cbn zeta.
  destruct (negb _); [done|].
  destruct (Z.ltb_spec 0 max_steps) as [Hpos|Hle].
  - destruct (len stepped.1 =? 1); cbn [andb]; [|done].
    apply bind_ext. intros s0 h3. destruct (_ && _); [done|].
    apply bind_ext. intros s0' h4. apply bind_ext. intros path0 h5.
    by apply Hrec.
  - by rewrite andb_false_r.
Qed.

Lemma stepper_depth_suffices depth project state path max_steps allow h :
  (Z.to_nat max_steps <= depth)%nat ->
  step_to_unconstrained_successor_rec depth project state path max_steps allow h
  = step_to_unconstrained_successor project state path max_steps allow h.
Proof.
  unfold step_to_unconstrained_successor.
  revert state path max_steps h.
  induction depth as [|depth IH]; intros state path max_steps h Hdepth.
  - by replace (Z.to_nat max_steps) with 0%nat by lia.
  - destruct (Z.to_nat max_steps) as [|k] eqn:Hk.
    + cbn [step_to_unconstrained_successor_rec]. unfold try_except.
      rewrite (bind_ext _ _
                 (fun _ => stepper_body (fun _ _ _ _ => raise RecursionDepthExceeded)
                             project state path max_steps allow)); [done|].
      intros _ h'. apply stepper_body_ext. lia.
    + cbn [step_to_unconstrained_successor_rec]. unfold try_except.
      rewrite (bind_ext _ _
                 (fun _ => stepper_body (step_to_unconstrained_successor_rec k project)
                             project state path max_steps allow)); [done|].
      intros _ h'. apply stepper_body_ext. intros Hpos state' path' h''.
      rewrite IH by lia. by replace (Z.to_nat (max_steps - 1)) with k by lia.
Qed.

(** ** Entry-State Builder *)

Lemma deref_last h st : deref (length h) (h ++ [st]) = (Ok st, h ++ [st]).
Proof. apply deref_run. by apply list_lookup_middle. Qed.

Lemma modify_last f h st :
  modify (length h) f (h ++ [st]) = (Ok tt, h ++ [f st]).
Proof.
  rewrite (modify_run _ _ _ st) by by apply list_lookup_middle.
  by rewrite insert_app_r_alt, Nat.sub_diag by lia.
Qed.

Lemma registers_load_last reg h st v :
  registers st !! reg = Some v ->
  registers_load (length h) reg (h ++ [st]) = (Ok v, h ++ [st]).
Proof. intros Hv. eapply registers_load_run; [by apply list_lookup_middle|done]. Qed.

Lemma registers_store_last reg v h st :
  is_Some (registers st !! reg) ->
  registers_store (length h) reg v (h ++ [st])
  = (Ok tt, h ++ [with_registers <[ reg := v ]> st]).
Proof.
  intros [v0 Hv0]. unfold registers_store.
  rewrite (bind_Ok _ _ _ _ _ (deref_last h st)), Hv0. apply modify_last.
Qed.

(** On a blank state that has a stack pointer [sp] and a frame pointer, the
    builder returns a new state whose frame pointer is [sp] plus 20 times
    the word width in bits. *)
Lemma make_initial_state_run project stack_length h sp :
  registers (blank project) !! "sp" = Some sp ->
  is_Some (registers (blank project) !! "bp") ->
  exists st,
    make_initial_state project stack_length h = (Ok (length h), h ++ [st]) /\
    registers st !! "sp" = Some sp /\
    registers st !! "bp"
    = Some (bv_add_int sp (20 * Z.of_N (bits (state_arch (blank project))))) /\
    memory st = memory (blank project)
                ++ [(sp, BVS "symbolic_stack" (bits (project_arch project) * stack_length))] /\
    solver_timeout st = Some 500.
Proof.
  intros Hsp Hbp. unfold make_initial_state, blank_state, mem_store.
  eexists. split.
  - erewrite bind_Ok; [|reflexivity].
    erewrite bind_Ok; [|apply modify_last].
    erewrite bind_Ok; [|apply modify_last].
    erewrite bind_Ok; [|apply registers_load_last; exact Hsp].
    erewrite bind_Ok; [|apply modify_last].
    erewrite bind_Ok; [|apply registers_load_last; exact Hsp].
    erewrite bind_Ok; [|apply deref_last].
    erewrite bind_Ok; [|apply registers_store_last; exact Hbp].
    erewrite bind_Ok; [|apply modify_last].
    reflexivity.
  - cbn. split_and!; [|by rewrite lookup_insert_eq|done..].
    by rewrite lookup_insert_ne.
Qed.

(** C1, evaluated: for the 64-bit target, whose blank state has the stack
    pointer [0x7ffffffffff0000], [make_initial_state] with a stack of 100
    words sets the frame pointer 1280 bytes (20 * 64) above the stack
    pointer, not 160 bytes (20 words of 8 bytes), and so beyond the 800
    bytes of the symbolic stack. *)
Lemma make_initial_state_bp_at_64 :
  exists st,
    make_initial_state (Toy.project Toy.steps) 100 [] = (Ok 0%nat, [st]) /\
    registers st !! "sp" = Some (BVV 0x7ffffffffff0000 64) /\
    registers st !! "bp" = Some (BVV (0x7ffffffffff0000 + 1280) 64) /\
    registers st !! "bp"
    <> Some (BVV (0x7ffffffffff0000 + 20 * word_bytes (state_arch st)) 64) /\
    memory st = [(BVV 0x7ffffffffff0000 64, BVS "symbolic_stack" (8 * 800))].
Proof.
  destruct (make_initial_state_run (Toy.project Toy.steps) 100 []
              (BVV 0x7ffffffffff0000 64))
    as (st & Hrun & Hsp & Hbp & Hmem & _).
  - reflexivity.
  - by eexists.
  - exists st. split_and!; [done|done| | |done].
    + rewrite Hbp. reflexivity.
    + rewrite Hbp.
      replace (state_arch st) with arch64.
      * vm_compute. discriminate.
      * cbn in Hrun. by injection Hrun as <-.
Qed.

(** ** The functions at work *)

Example make_symbolic_state_ex :
  exists st,
    (fun r => (r.1, r.2 !! 1%nat))
      (make_symbolic_state (Toy.project Toy.steps) ["rax"; "rbx"] 200 [])
    = (Ok 1%nat, Some st) /\
    registers st !! "rax" = Some (BVS "sreg_rax-" 64) /\
    registers st !! "sp" = Some (BVV 0x7ffffffffff0000 64) /\
    get_ast_dependency (BinOp OpXor (BVS "sreg_rax-" 64) (BVS "sreg_rbx-" 64))
    = PySet {[ "rax"; "rbx" ]}.
Proof. eexists. split_and!; vm_compute; reflexivity. Qed.

Example get_ast_controllers_ex1 :
  fst (get_ast_controllers Toy.solver 0%nat (BVS "sreg_rax-_7_64" 64) ["rax"]
         [Toy.symbolic64]) = Ok ["rax"].
Proof. vm_compute. reflexivity. Qed.

Example get_ast_controllers_ex2 :
  fst (get_ast_controllers Toy.solver 0%nat ast_rax_and_rbx ["rax"; "rbx"]
         [Toy.symbolic64]) = Ok [].
Proof. vm_compute. reflexivity. Qed.

Example get_ast_controllers_ex3 :
  fst (get_ast_controllers Toy.solver 0%nat (BVV 7 64) ["rax"] [Toy.symbolic64])
  = Ok [].
Proof. vm_compute. reflexivity. Qed.

Example stepper_ex_unconstrained :
  fst (step_to_unconstrained_successor (Toy.project Toy.steps) 0%nat None 2 false
         [Toy.blank64])
  = Ok (mkPath 2%nat 0 None).
Proof. vm_compute. reflexivity. Qed.

Example stepper_ex_unsupported_syscall :
  fst (step_to_unconstrained_successor (Toy.project Toy.steps) 0%nat
         (Some (mkPath 0%nat 0x400200 None)) 2 false [Toy.blank64])
  = Raise (RopException "Does not get to a single unconstrained successor").
Proof. vm_compute. reflexivity. Qed.

Example stepper_ex_negative_budget :
  fst (step_to_unconstrained_successor (Toy.project Toy.steps) 0%nat None (-1) false
         [Toy.blank64])
  = Raise IndexError.
Proof. vm_compute. reflexivity. Qed.

(** * Further properties *)

(** ** Register Resolver: offsets outside the table *)

(** X1: a negative offset is never resolved, whatever the table lists: the
    scan does not start. *)
Theorem get_reg_name_negative_offset (arch : Arch) (o : Z) :
  o < 0 ->
  get_reg_name arch (Some o)
  = Raise (RegNotFoundException ("register " +:+ PyStr.str o +:+ " not found")).
Proof.
  intros Hneg. cbn. rewrite get_reg_name_loop_step.
  replace (scan_guard arch o o) with false; [done|].
  symmetry. apply scan_guard_false. lia.
Qed.

Lemma get_reg_name_negative_offset_witness :
  get_reg_name (mkArch 64 (list_to_map [(-1, "ghost"); (0, "rax")])) (Some (-1))
  = Raise (RegNotFoundException "register -1 not found").
Proof.
  apply (get_reg_name_negative_offset
           (mkArch 64 (list_to_map [(-1, "ghost"); (0, "rax")])) (-1)).
  lia.
Defined.

(** X2: the answer depends on the word width and on the table entries from
    [max 0 (o - wordBytes)] to [o] only: two architectures that agree there
    resolve [o] alike. *)
Theorem get_reg_name_window_only (arch1 arch2 : Arch) (o : Z) :
  bits arch1 = bits arch2 ->
  (forall b, in_window arch1 o b ->
             register_names arch1 !! b = register_names arch2 !! b) ->
  get_reg_name arch1 (Some o) = get_reg_name arch2 (Some o).
Proof.
  intros Hbits Hagree.
  assert (Hwin : forall b, in_window arch1 o b <-> in_window arch2 o b).
  { intros b. unfold in_window, word_bytes. by rewrite Hbits. }
  destruct (get_reg_name arch1 (Some o)) as [name|e] eqn:Hres.
  - apply get_reg_name_Ok_inv in Hres as (b & Hb & Hb_win & Hgap).
    symmetry. apply (get_reg_name_first_base arch2 o b name).
    + by rewrite <- Hagree.
    + by apply Hwin.
    + intros b' Hb'. rewrite <- Hagree; [by apply Hgap|].
      destruct Hb_win as (? & ? & ?). unfold in_window. lia.
  - apply get_reg_name_Raise_inv in Hres as [-> Hnone].
    destruct (get_reg_name arch2 (Some o)) as [name|e] eqn:Hres2.
    + apply get_reg_name_Ok_inv in Hres2 as (b & Hb & Hb_win & _).
      apply Hwin in Hb_win. rewrite <- Hagree, Hnone in Hb by done. discriminate.
    + by apply get_reg_name_Raise_inv in Hres2 as [-> _].
Qed.

Lemma get_reg_name_window_only_witness :
  get_reg_name arch64 (Some 9)
  = get_reg_name (mkArch 64 (list_to_map [(0, "eax"); (8, "rbx"); (24, "rdx")])) (Some 9).
Proof.
  apply (get_reg_name_window_only arch64
           (mkArch 64 (list_to_map [(0, "eax"); (8, "rbx"); (24, "rdx")])) 9).
  - reflexivity.
  - intros b (Hle & _ & Hge).
    change (word_bytes arch64) with 8 in Hge.
    assert (Hb : b = 1 \/ b = 2 \/ b = 3 \/ b = 4 \/ b = 5 \/ b = 6 \/ b = 7 \/
                 b = 8 \/ b = 9) by lia.
    destruct Hb as [->|[->|[->|[->|[->|[->|[->|[->| ->]]]]]]]]; reflexivity.
Defined.

(** ** The tagging convention: [make_symbolic_state] to [get_ast_dependency] *)

Lemma get_ast_dependency_sreg reg suffix size :
  get_ast_dependency (BVS (sreg_name reg suffix) size)
  = PySet {[ PyStr.split_head "-" reg ]}.
Proof.
  unfold get_ast_dependency. cbn [variables].
  rewrite elements_singleton. cbn [get_ast_dependency_loop].
  rewrite startswith_sreg_name, decode_tag_sreg_name.
  f_equal. set_solver.
Qed.

(** X3: the tag round trip. The value [make_symbolic_state] names
    ["sreg_" + reg + "-"] (plus any suffix) is recognised by
    [get_ast_dependency], which gives back exactly [reg], provided the
    register name contains no dash. *)
Theorem get_ast_dependency_sreg_roundtrip (reg suffix : string) (size : N) :
  has_char "-" reg = false ->
  get_ast_dependency (BVS (sreg_name reg suffix) size) = PySet {[ reg ]}.
Proof.
  intros Hdash. by rewrite get_ast_dependency_sreg, split_head_no_dash.
Qed.

Lemma get_ast_dependency_sreg_roundtrip_witness :
  get_ast_dependency (BVS (sreg_name "rax" "_7_64") 64) = PySet {[ "rax" ]}.
Proof.
  apply (get_ast_dependency_sreg_roundtrip "rax" "_7_64" 64). reflexivity.
Defined.

(** X4: a register name that contains a dash is not given back: the
    extractor reports its part before the first dash, a different name. *)
Theorem get_ast_dependency_dash_truncates (reg suffix : string) (size : N) :
  has_char "-" reg = true ->
  get_ast_dependency (BVS (sreg_name reg suffix) size)
  = PySet {[ PyStr.split_head "-" reg ]} /\
  PyStr.split_head "-" reg <> reg.
Proof.
  intros Hdash. split; [apply get_ast_dependency_sreg|by apply split_head_dash].
Qed.

Lemma get_ast_dependency_dash_truncates_witness :
  get_ast_dependency (BVS (sreg_name "cc-op" "_9_64") 64) = PySet {[ "cc" ]} /\
  "cc" <> "cc-op".
Proof.
  apply (get_ast_dependency_dash_truncates "cc-op" "_9_64" 64). reflexivity.
Defined.

(** ** Entry-State and Register-Symbolization Builders *)

Lemma make_initial_state_exact project stack_length h sp :
  registers (blank project) !! "sp" = Some sp ->
  is_Some (registers (blank project) !! "bp") ->
  make_initial_state project stack_length h
  = (Ok (length h), h ++ [entry_state project stack_length sp]).
Proof.
  intros Hsp Hbp. unfold make_initial_state, blank_state, mem_store, entry_state.
  erewrite bind_Ok; [|reflexivity].
  erewrite bind_Ok; [|apply modify_last].
  erewrite bind_Ok; [|apply modify_last].
  erewrite bind_Ok; [|apply registers_load_last; exact Hsp].
  erewrite bind_Ok; [|apply modify_last].
  erewrite bind_Ok; [|apply registers_load_last; exact Hsp].
  erewrite bind_Ok; [|apply deref_last].
  erewrite bind_Ok; [|apply registers_store_last; exact Hbp].
  erewrite bind_Ok; [|apply modify_last].
  reflexivity.
Qed.

(** X5: the state [make_initial_state] returns is a new object - the states
    that exist keep their place and content. Its options are the four action
    tracking options, always, together with the blank state's options and the
    six added ones except those of the resilience and simplification sets
    and except zero-filling; its solver timeout is 500; its memory has the
    symbolic stack of [bits * stack_length] bits stored at the stack pointer;
    its constraints are those of the blank state. *)
Theorem make_initial_state_options
    (project : Project) (stack_length : N) (h : Heap) (sp : Ast) :
  registers (blank project) !! "sp" = Some sp ->
  is_Some (registers (blank project) !! "bp") ->
  exists st,
    make_initial_state project stack_length h = (Ok (length h), h ++ [st]) /\
    (forall o,
        o ∈ options st <->
        o ∈ ({[ "TRACK_REGISTER_ACTIONS"; "TRACK_MEMORY_ACTIONS";
                "TRACK_JMP_ACTIONS"; "TRACK_CONSTRAINT_ACTIONS" ]} : gset string) \/
        (o <> "CGC_ZERO_FILL_UNCONSTRAINED_MEMORY" /\
         (o ∉ resilience_options project) /\ (o ∉ simplification project) /\
         (o ∈ options (blank project) \/
          o ∈ ({[ "AVOID_MULTIVALUED_READS"; "AVOID_MULTIVALUED_WRITES";
                  "NO_SYMBOLIC_JUMP_RESOLUTION"; "CGC_NO_SYMBOLIC_RECEIVE_LENGTH";
                  "NO_SYMBOLIC_SYSCALL_RESOLUTION"; "TRACK_ACTION_HISTORY" ]}
               : gset string)))) /\
    solver_timeout st = Some 500 /\
    memory st = memory (blank project)
                ++ [(sp, BVS "symbolic_stack" (bits (project_arch project) * stack_length))] /\
    constraints st = constraints (blank project) /\
    registers st !! "sp" = Some sp.
Proof.
  intros Hsp Hbp. exists (entry_state project stack_length sp).
  split; [by apply make_initial_state_exact|].
  split_and!; [|done..|by cbn; rewrite lookup_insert_ne].
  intros o. cbn. set_solver.
Qed.

Lemma make_initial_state_options_witness :
  exists st,
    make_initial_state (Toy.project Toy.steps) 100 [Toy.symbolic64]
    = (Ok 1%nat, [Toy.symbolic64; st]) /\
    "TRACK_JMP_ACTIONS" ∈ options st /\
    ("CGC_ZERO_FILL_UNCONSTRAINED_MEMORY" ∉ options st) /\
    solver_timeout st = Some 500.
Proof.
  destruct (make_initial_state_options (Toy.project Toy.steps) 100 [Toy.symbolic64]
              (BVV 0x7ffffffffff0000 64))
    as (st & Hrun & Hopts & Htimeout & _); [reflexivity|by eexists|].
  exists st. split_and!; [done| | |done].
  - apply Hopts. left. set_solver.
  - intros Hin. apply Hopts in Hin as [Hin|(Hne & _)]; [|done].
    set_solver.
Defined.

Lemma with_registers_compose f g st :
  with_registers g (with_registers f st) = with_registers (fun r => g (f r)) st.
Proof. by destruct st. Qed.

Lemma symbolized_lookup bits reg_list regs reg :
  symbolized bits reg_list regs !! reg
  = if decide (reg ∈ reg_list) then Some (BVS ("sreg_" +:+ reg +:+ "-") bits)
    else regs !! reg.
Proof.
  unfold symbolized. revert regs.
  induction reg_list as [|r rest IH]; intros regs; cbn [foldl].
  - by rewrite decide_False by set_solver.
  - rewrite IH. destruct (decide (reg = r)) as [->|Hne].
    + rewrite lookup_insert_eq.
      rewrite (decide_True (P := r ∈ r :: rest)) by set_solver.
      by destruct (decide (r ∈ rest)).
    + rewrite lookup_insert_ne by done.
      destruct (decide (reg ∈ rest)).
      * by rewrite decide_True by set_solver.
      * by rewrite decide_False by set_solver.
Qed.

Lemma symbolized_is_Some bits reg_list regs reg :
  is_Some (regs !! reg) -> is_Some (symbolized bits reg_list regs !! reg).
Proof. intros Hreg. rewrite symbolized_lookup. by case_decide. Qed.

Lemma symbolize_registers_run project reg_list h st :
  Forall (fun reg => is_Some (registers st !! reg)) reg_list ->
  symbolize_registers project (length h) reg_list (h ++ [st])
  = (Ok tt, h ++ [with_registers (symbolized (bits (project_arch project)) reg_list) st]).
Proof.
  revert st. induction reg_list as [|reg rest IH]; intros st Hall.
  - cbn. by destruct st.
  - apply Forall_cons in Hall as [Hreg Hrest]. cbn [symbolize_registers].
    erewrite bind_Ok; [|by apply registers_store_last].
    rewrite IH.
    + by rewrite with_registers_compose.
    + eapply Forall_impl; [exact Hrest|]. intros r Hr. cbn.
      destruct (decide (r = reg)) as [->|Hne].
      * rewrite lookup_insert_eq. by eexists.
      * by rewrite lookup_insert_ne.
Qed.

Lemma make_symbolic_state_run
    (project : Project) (reg_list : list string) (stack_length : N)
    (h : Heap) (sp : Ast) :
  registers (blank project) !! "sp" = Some sp ->
  is_Some (registers (blank project) !! "bp") ->
  Forall (fun reg => is_Some (registers (blank project) !! reg)) reg_list ->
  exists entry sym,
    make_initial_state project stack_length h = (Ok (length h), h ++ [entry]) /\
    make_symbolic_state project reg_list stack_length h
    = (Ok (S (length h)), h ++ [entry; sym]) /\
    (forall reg,
        registers sym !! reg
        = if decide (reg = "sp" \/ reg = "bp") then registers entry !! reg
          else if decide (reg ∈ reg_list)
               then Some (BVS ("sreg_" +:+ reg +:+ "-") (bits (project_arch project)))
               else registers entry !! reg) /\
    memory sym = memory entry /\ constraints sym = constraints entry /\
    options sym = options entry /\ solver_timeout sym = solver_timeout entry.
Proof.
  intros Hsp Hbp Hall.
  set (entry := entry_state project stack_length sp).
  set (bp := bv_add_int sp (20 * Z.of_N (bits (state_arch (blank project))))).
  assert (Hentry_sp : registers entry !! "sp" = Some sp)
    by (cbn; by rewrite lookup_insert_ne).
  assert (Hentry_bp : registers entry !! "bp" = Some bp)
    by (cbn; by rewrite lookup_insert_eq).
  assert (Hentry_all : Forall (fun reg => is_Some (registers entry !! reg)) reg_list).
  { eapply Forall_impl; [exact Hall|]. intros r Hr. cbn.
    destruct (decide (r = "bp")) as [->|Hne].
    - rewrite lookup_insert_eq. by eexists.
    - by rewrite lookup_insert_ne. }
  set (sym1 := with_registers (symbolized (bits (project_arch project)) reg_list) entry).
  set (sym := with_registers <[ "bp" := bp ]> (with_registers <[ "sp" := sp ]> sym1)).
  exists entry, sym.
  pose proof (make_initial_state_exact project stack_length h sp Hsp Hbp) as Hinit.
  split; [done|]. split.
  - unfold make_symbolic_state.
    erewrite bind_Ok; [|exact Hinit].
    erewrite bind_Ok; [|apply copy_run; by apply list_lookup_middle].
    rewrite length_app. cbn [length]. rewrite Nat.add_1_r.
    replace (S (length h)) with (length (h ++ [entry]))
      by (rewrite length_app; cbn; lia).
    erewrite bind_Ok; [|by apply symbolize_registers_run].
    fold sym1.
    assert (Hload : forall reg v x, registers entry !! reg = Some v ->
               registers_load (length h) reg ((h ++ [entry]) ++ [x])
               = (Ok v, (h ++ [entry]) ++ [x])).
    { intros reg v x Hv. eapply registers_load_run; [|exact Hv].
      rewrite lookup_app_l by (rewrite length_app; cbn; lia).
      by apply list_lookup_middle. }
    erewrite bind_Ok; [|by apply Hload].
    erewrite bind_Ok;
      [|apply registers_store_last; apply symbolized_is_Some; exists sp; exact Hentry_sp].
    erewrite bind_Ok; [|by apply Hload].
    erewrite bind_Ok;
      [|apply registers_store_last; cbn; rewrite lookup_insert_ne by done;
        apply symbolized_is_Some; exists bp; exact Hentry_bp].
    fold sym. unfold ret. f_equal. by rewrite <- app_assoc.
  - split_and!; [|done..].
    intros reg. subst sym sym1. cbn [registers with_registers].
    destruct (decide (reg = "bp")) as [->|Hbp_ne].
    { rewrite decide_True by by right. by rewrite lookup_insert_eq, Hentry_bp. }
    rewrite lookup_insert_ne by done.
    destruct (decide (reg = "sp")) as [->|Hsp_ne].
    { rewrite decide_True by by left. by rewrite lookup_insert_eq, Hentry_sp. }
    rewrite lookup_insert_ne by done.
    rewrite decide_False by (intros [?|?]; done).
    apply symbolized_lookup.
Qed.

(** X6: [make_symbolic_state] leaves the states that exist alone and adds
    two: the entry state [make_initial_state] builds, and a copy of it in
    which every register of [reg_list] holds a symbolic value of the word
    width named ["sreg_" + reg + "-"] - except that the stack and frame
    pointers are those of the entry state again, listed or not. Registers
    that are not listed, memory, constraints and options are those of the
    entry state. *)
Theorem make_symbolic_state_registers
    (project : Project) (reg_list : list string) (stack_length : N)
    (h : Heap) (sp : Ast) :
  registers (blank project) !! "sp" = Some sp ->
  is_Some (registers (blank project) !! "bp") ->
  Forall (fun reg => is_Some (registers (blank project) !! reg)) reg_list ->
  exists entry sym,
    make_initial_state project stack_length h = (Ok (length h), h ++ [entry]) /\
    make_symbolic_state project reg_list stack_length h
    = (Ok (S (length h)), h ++ [entry; sym]) /\
    (forall reg,
        registers sym !! reg
        = if decide (reg = "sp" \/ reg = "bp") then registers entry !! reg
          else if decide (reg ∈ reg_list)
               then Some (BVS ("sreg_" +:+ reg +:+ "-") (bits (project_arch project)))
               else registers entry !! reg) /\
    memory sym = memory entry /\ constraints sym = constraints entry /\
    options sym = options entry /\ solver_timeout sym = solver_timeout entry.
Proof. apply make_symbolic_state_run. Qed.

Lemma make_symbolic_state_registers_witness :
  exists entry sym,
    make_symbolic_state (Toy.project Toy.steps) ["rax"; "sp"] 200 []
    = (Ok 1%nat, [entry; sym]) /\
    registers sym !! "rax" = Some (BVS "sreg_rax-" 64) /\
    registers sym !! "sp" = Some (BVV 0x7ffffffffff0000 64) /\
    registers sym !! "rbx" = Some (BVV 0 64).
Proof.
  destruct (make_symbolic_state_registers (Toy.project Toy.steps) ["rax"; "sp"] 200 []
              (BVV 0x7ffffffffff0000 64))
    as (entry & sym & Hinit & Hrun & Hregs & _).
  - reflexivity.
  - by eexists.
  - repeat constructor; by eexists.
  - exists entry, sym. split; [done|].
    cbn in Hinit. injection Hinit as <-.
    rewrite !Hregs. split_and!; reflexivity.
Defined.

(** ** Stepper: the other outcomes *)

Lemma paths_at_cons base s rest :
  paths_at base (s :: rest)
  = mkPath base (successor_addr s) (successor_error s) :: paths_at (S base) rest.
Proof.
  unfold paths_at. cbn [imap]. rewrite Nat.add_0_r. f_equal.
  apply imap_ext. intros i x _. cbn. f_equal. lia.
Qed.

Lemma new_paths_exact succs h :
  new_paths succs h
  = (Ok (paths_at (length h) succs), h ++ (successor_state <$> succs)).
Proof.
  revert h. induction succs as [|s rest IH]; intros h; cbn [new_paths].
  - cbn. by rewrite app_nil_r.
  - erewrite bind_Ok; [|reflexivity].
    erewrite bind_Ok; [|apply IH].
    rewrite paths_at_cons, length_app, Nat.add_1_r. cbn. by rewrite <- app_assoc.
Qed.

Lemma path_step_exact project p h st succs unconstrained :
  h !! path_state p = Some st ->
  step project p st = Stepped succs unconstrained ->
  path_step project p h
  = (Ok (paths_at (length h) succs,
         paths_at (length h + length succs) unconstrained),
     h ++ (successor_state <$> succs) ++ (successor_state <$> unconstrained)).
Proof.
  intros Hst Hstep. unfold path_step.
  rewrite (bind_Ok _ _ _ _ _ (deref_run _ _ _ Hst)), Hstep.
  erewrite bind_Ok; [|apply new_paths_exact].
  erewrite bind_Ok; [|apply new_paths_exact].
  rewrite length_app, length_fmap. cbn. by rewrite <- app_assoc.
Qed.

Lemma path_step_raises project p h st e :
  h !! path_state p = Some st ->
  step project p st = StepRaises e ->
  path_step project p h = (Raise e, h).
Proof.
  intros Hst Hstep. unfold path_step.
  by rewrite (bind_Ok _ _ _ _ _ (deref_run _ _ _ Hst)), Hstep.
Qed.

(** The result of one call never is the engine's raw exception. *)
Lemma try_except_not_caught {A} (m : M A) catches msg h e :
  catches (RopException msg) = false ->
  (try_except m catches (raise (RopException msg)) h).1 = Raise e ->
  catches e = false.
Proof.
  intros Hrop. unfold try_except.
  destruct (m h) as [[a|e'] h']; cbn; [done|].
  destruct (catches e') eqn:Hc; cbn; intros [= <-]; done.
Qed.

Lemma stepper_rec_not_unsupported depth project state path max_steps allow h e :
  (step_to_unconstrained_successor_rec depth project state path max_steps allow h).1
  = Raise e ->
  is_UnsupportedSyscallError e = false.
Proof.
  destruct depth; cbn [step_to_unconstrained_successor_rec];
    by apply try_except_not_caught.
Qed.

(** X7: whatever the engine does, the Stepper never lets
    [UnsupportedSyscallError] through. *)
Theorem stepper_never_raw_unsupported_syscall
    (project : Project) (state : loc) (path : option Path) (max_steps : Z)
    (allow_simprocedures : bool) (h : Heap) :
  fst (step_to_unconstrained_successor project state path max_steps
         allow_simprocedures h)
  <> Raise UnsupportedSyscallError.
Proof.
  intros Hres. by apply stepper_rec_not_unsupported in Hres.
Qed.

Section StepperOutcomes.

Variables (project : Project) (state : loc) (path : option Path)
          (max_steps : Z) (allow : bool) (h : Heap) (st : SimState).

Let p := stepped_path project state path st.
Let h1 := <[ state := enable_bypass st ]> h.

Hypothesis Hstate : h !! state = Some st.

Lemma stepper_chooses_path :
  match path with
  | None => factory_path project state
  | Some path => ret path
  end h1 = (Ok p, h1).
Proof.
  subst p. unfold stepped_path. destruct path; [done|]. unfold factory_path.
  rewrite (bind_Ok _ _ h1 (enable_bypass st) h1); [done|].
  apply deref_run. subst h1. apply list_lookup_insert_eq.
  by eapply lookup_lt_Some.
Qed.

(** One call, up to the point where the step has been made. *)
Lemma stepper_unfold depth :
  step_to_unconstrained_successor_rec depth project state path max_steps allow h
  = try_except
      (fun _ =>
         stepper_body
           (match depth with
            | S depth' => step_to_unconstrained_successor_rec depth' project
            | O => fun _ _ _ _ => raise RecursionDepthExceeded
            end) project state path max_steps allow h1)
      is_UnsupportedSyscallError
      (raise (RopException "Does not get to a single unconstrained successor")) h.
Proof.
  destruct depth; cbn [step_to_unconstrained_successor_rec]; unfold try_except;
    by rewrite (bind_Ok _ _ _ _ _ (modify_run _ _ _ _ Hstate)).
Qed.

Lemma stepper_errored msg :
  error p = Some msg ->
  step_to_unconstrained_successor project state path max_steps allow h
  = (Raise (RopException msg), h1).
Proof.
  intros Herr. unfold step_to_unconstrained_successor.
  rewrite stepper_unfold. unfold try_except, stepper_body.
  rewrite (bind_Ok _ _ _ _ _ stepper_chooses_path).
  unfold errored. by rewrite Herr.
Qed.

Variables (pst : SimState).
Hypothesis Hnoerror : error p = None.
Hypothesis Hpstate : h1 !! path_state p = Some pst.

Lemma stepper_step_raises e :
  step project p pst = StepRaises e ->
  step_to_unconstrained_successor project state path max_steps allow h
  = (Raise (if is_UnsupportedSyscallError e
            then RopException "Does not get to a single unconstrained successor"
            else e), h1).
Proof.
  intros Hstep. unfold step_to_unconstrained_successor.
  rewrite stepper_unfold. unfold try_except, stepper_body.
  rewrite (bind_Ok _ _ _ _ _ stepper_chooses_path).
  unfold errored. rewrite Hnoerror.
  unfold bind at 1. rewrite (path_step_raises _ _ _ _ _ Hpstate Hstep).
  by destruct (is_UnsupportedSyscallError e).
Qed.

Variables (succs unconstrained : list Successor).
Hypothesis Hstep : step project p pst = Stepped succs unconstrained.

(** The body once the step is made: what remains is the case analysis of
    lines 176-186 on the two lists of paths. *)
Lemma stepper_body_stepped recurse :
  stepper_body recurse project state path max_steps allow h1
  = (let p_successors := paths_at (length h) succs in
     let p_unconstrained_successors :=
       paths_at (length h + length succs) unconstrained in
     if negb (len p_successors + len p_unconstrained_successors =? 1)
     then raise (RopException "Does not get to a single successor") else
     if (len p_successors =? 1) && (0 <? max_steps) then
       bind (index p_successors 0) (fun s0 =>
       if negb allow && is_hooked project (addr s0)
       then raise (RopException "Skipping simprocedure") else
       bind (index p_successors 0) (fun s0 =>
       bind (index p_successors 0) (fun path0 =>
       recurse (path_state s0) (Some path0) (max_steps - 1) allow)))
     else
     if (len p_successors =? 1) && (max_steps =? 0)
     then raise (RopException "Does not get to an unconstrained successor") else
     bind (index p_unconstrained_successors 0) (fun p => ret p))
      (h1 ++ (successor_state <$> succs) ++ (successor_state <$> unconstrained)).
Proof.
  unfold stepper_body.
  rewrite (bind_Ok _ _ _ _ _ stepper_chooses_path).
  unfold errored. rewrite Hnoerror.
  rewrite (bind_Ok _ _ _ _ _ (path_step_exact _ _ _ _ _ _ Hpstate Hstep)).
  subst h1. rewrite length_insert. reflexivity.
Qed.

End StepperOutcomes.

Lemma try_except_id {A} (m : M A) catches handler h :
  (forall e, (m h).1 = Raise e -> catches e = false) ->
  try_except m catches handler h = m h.
Proof.
  intros Hnot. unfold try_except. destruct (m h) as [[a|e] h']; [done|].
  by rewrite (Hnot e eq_refl).
Qed.

(** X8: a path that already carries an error is not stepped: the Stepper
    fails with a [RopException] holding that error, and the only effect is
    the option added to the state. *)
Theorem stepper_errored_path
    (project : Project) (state : loc) (path : option Path) (max_steps : Z)
    (allow_simprocedures : bool) (h : Heap) (st : SimState) (msg : string) :
  h !! state = Some st ->
  error (stepped_path project state path st) = Some msg ->
  step_to_unconstrained_successor project state path max_steps allow_simprocedures h
  = (Raise (RopException msg), <[ state := enable_bypass st ]> h).
Proof. intros Hst Herr. by apply stepper_errored. Qed.

Lemma stepper_errored_path_witness :
  step_to_unconstrained_successor (Toy.project Toy.steps) 0%nat
    (Some (mkPath 0%nat 0x400000 (Some "SimSegfaultError"))) 2 false [Toy.blank64]
  = (Raise (RopException "SimSegfaultError"), [enable_bypass Toy.blank64]).
Proof.
  apply (stepper_errored_path (Toy.project Toy.steps) 0%nat
           (Some (mkPath 0%nat 0x400000 (Some "SimSegfaultError"))) 2 false
           [Toy.blank64] Toy.blank64 "SimSegfaultError"); reflexivity.
Defined.

(** X9: an exception raised by the engine during the step ends the call:
    [UnsupportedSyscallError] becomes the [RopException] "Does not get to a
    single unconstrained successor", any other exception is passed on as it
    is. *)
Theorem stepper_step_exception
    (project : Project) (state : loc) (path : option Path) (max_steps : Z)
    (allow_simprocedures : bool) (h : Heap) (st pst : SimState) (e : exn) :
  h !! state = Some st ->
  error (stepped_path project state path st) = None ->
  <[ state := enable_bypass st ]> h
    !! path_state (stepped_path project state path st) = Some pst ->
  step project (stepped_path project state path st) pst = StepRaises e ->
  fst (step_to_unconstrained_successor project state path max_steps
         allow_simprocedures h)
  = Raise (if is_UnsupportedSyscallError e
           then RopException "Does not get to a single unconstrained successor"
           else e).
Proof.
  intros Hst Herr Hpst Hstep.
  by rewrite (stepper_step_raises project state path max_steps allow_simprocedures
                h st Hst pst Herr Hpst e Hstep).
Qed.

Lemma stepper_step_exception_witness :
  fst (step_to_unconstrained_successor (Toy.project Toy.steps) 0%nat
         (Some (mkPath 0%nat 0x400200 None)) 2 false [Toy.blank64])
  = Raise (RopException "Does not get to a single unconstrained successor").
Proof.
  apply (stepper_step_exception (Toy.project Toy.steps) 0%nat
           (Some (mkPath 0%nat 0x400200 None)) 2 false [Toy.blank64]
           Toy.blank64 (enable_bypass Toy.blank64) UnsupportedSyscallError);
    reflexivity.
Defined.

(** X10: a single unconstrained successor is returned as the result whatever
    the budget is, zero and negative budgets included; the returned path is
    at a new state object, the one the step created. *)
Theorem stepper_unconstrained_success
    (project : Project) (state : loc) (path : option Path) (max_steps : Z)
    (allow_simprocedures : bool) (h : Heap) (st pst : SimState)
    (successor : Successor) :
  h !! state = Some st ->
  error (stepped_path project state path st) = None ->
  <[ state := enable_bypass st ]> h
    !! path_state (stepped_path project state path st) = Some pst ->
  step project (stepped_path project state path st) pst = Stepped [] [successor] ->
  step_to_unconstrained_successor project state path max_steps allow_simprocedures h
  = (Ok (mkPath (length h) (successor_addr successor) (successor_error successor)),
     <[ state := enable_bypass st ]> h ++ [successor_state successor]).
Proof.
  intros Hst Herr Hpst Hstep. unfold step_to_unconstrained_successor.
  rewrite (stepper_unfold project state path max_steps allow_simprocedures h st Hst).
  unfold try_except.
  rewrite (stepper_body_stepped project state path max_steps allow_simprocedures
             h st Hst pst Herr Hpst [] [successor] Hstep).
  cbn. by rewrite !Nat.add_0_r.
Qed.

Lemma stepper_unconstrained_success_witness :
  step_to_unconstrained_successor (Toy.project Toy.steps) 0%nat
    (Some (mkPath 0%nat 0x400004 None)) 0 false [Toy.blank64]
  = (Ok (mkPath 1%nat 0 None), [enable_bypass Toy.blank64; Toy.blank64]).
Proof.
  apply (stepper_unconstrained_success (Toy.project Toy.steps) 0%nat
           (Some (mkPath 0%nat 0x400004 None)) 0 false [Toy.blank64]
           Toy.blank64 (enable_bypass Toy.blank64) (Toy.successor_at 0));
    reflexivity.
Defined.

(** The body after a step with a single constrained successor and no
    unconstrained one. *)
Lemma stepper_body_single recurse project state path max_steps allow h st pst
    successor :
  h !! state = Some st ->
  error (stepped_path project state path st) = None ->
  <[ state := enable_bypass st ]> h
    !! path_state (stepped_path project state path st) = Some pst ->
  step project (stepped_path project state path st) pst = Stepped [successor] [] ->
  stepper_body recurse project state path max_steps allow
    (<[ state := enable_bypass st ]> h)
  = (if 0 <? max_steps then
       if negb allow && is_hooked project (successor_addr successor)
       then raise (RopException "Skipping simprocedure")
       else recurse (length h)
              (Some (mkPath (length h) (successor_addr successor)
                       (successor_error successor)))
              (max_steps - 1) allow
     else if max_steps =? 0
          then raise (RopException "Does not get to an unconstrained successor")
          else raise IndexError)
      (<[ state := enable_bypass st ]> h ++ [successor_state successor]).
Proof.
  intros Hst Herr Hpst Hstep.
  rewrite (stepper_body_stepped project state path max_steps allow
             h st Hst pst Herr Hpst [successor] [] Hstep).
  cbv zeta. unfold paths_at. cbn [imap length fmap list_fmap app].
  rewrite !Nat.add_0_r.
  change (len [?x]) with 1. change (len (@nil Path)) with 0.
  change (1 + 0 =? 1) with true. change (1 =? 1) with true.
  cbn [negb andb].
  destruct (0 <? max_steps).
  - unfold index. cbn [lookup list_lookup lift_option].
    rewrite bind_ret_run. cbn [addr].
    destruct (negb allow && is_hooked project (successor_addr successor)); [done|].
    by rewrite !bind_ret_run.
  - destruct (max_steps =? 0); [done|]. reflexivity.
Qed.

(** X11: with budget left and simulated procedures not allowed, a single
    constrained successor at a hooked address makes the Stepper fail with the
    [RopException] "Skipping simprocedure". *)
Theorem stepper_hooked_successor
    (project : Project) (state : loc) (path : option Path) (max_steps : Z)
    (h : Heap) (st pst : SimState) (successor : Successor) :
  h !! state = Some st ->
  error (stepped_path project state path st) = None ->
  <[ state := enable_bypass st ]> h
    !! path_state (stepped_path project state path st) = Some pst ->
  step project (stepped_path project state path st) pst = Stepped [successor] [] ->
  0 < max_steps ->
  is_hooked project (successor_addr successor) = true ->
  fst (step_to_unconstrained_successor project state path max_steps false h)
  = Raise (RopException "Skipping simprocedure").
Proof.
  intros Hst Herr Hpst Hstep Hpos Hhook. unfold step_to_unconstrained_successor.
  rewrite (stepper_unfold project state path max_steps false h st Hst).
  unfold try_except.
  rewrite (stepper_body_single _ project state path max_steps false
             h st pst successor Hst Herr Hpst Hstep).
  apply Z.ltb_lt in Hpos. rewrite Hpos. cbn [negb andb]. by rewrite Hhook.
Qed.

Lemma stepper_hooked_successor_witness :
  fst (step_to_unconstrained_successor
         (Toy.project (fun _ => Stepped [Toy.successor_at 0x500000] []))
         0%nat None 2 false [Toy.blank64])
  = Raise (RopException "Skipping simprocedure").
Proof.
  apply (stepper_hooked_successor
           (Toy.project (fun _ => Stepped [Toy.successor_at 0x500000] []))
           0%nat None 2 [Toy.blank64] Toy.blank64 (enable_bypass Toy.blank64)
           (Toy.successor_at 0x500000)); reflexivity.
Defined.

(** X12: with a negative budget, a single constrained successor is neither
    followed nor reported as exhausting the budget: line 185 indexes the
    empty list of unconstrained successors and the call ends in an
    [IndexError], which is no [RopException]. *)
Theorem stepper_negative_budget
    (project : Project) (state : loc) (path : option Path) (max_steps : Z)
    (allow_simprocedures : bool) (h : Heap) (st pst : SimState)
    (successor : Successor) :
  h !! state = Some st ->
  error (stepped_path project state path st) = None ->
  <[ state := enable_bypass st ]> h
    !! path_state (stepped_path project state path st) = Some pst ->
  step project (stepped_path project state path st) pst = Stepped [successor] [] ->
  max_steps < 0 ->
  fst (step_to_unconstrained_successor project state path max_steps
         allow_simprocedures h)
  = Raise IndexError.
Proof.
  intros Hst Herr Hpst Hstep Hneg. unfold step_to_unconstrained_successor.
  rewrite (stepper_unfold project state path max_steps allow_simprocedures h st Hst).
  unfold try_except.
  rewrite (stepper_body_single _ project state path max_steps allow_simprocedures
             h st pst successor Hst Herr Hpst Hstep).
  replace (0 <? max_steps) with false by (symmetry; apply Z.ltb_ge; lia).
  replace (max_steps =? 0) with false by (symmetry; apply Z.eqb_neq; lia).
  reflexivity.
Qed.

Lemma stepper_negative_budget_witness :
  fst (step_to_unconstrained_successor (Toy.project Toy.steps) 0%nat None (-1) true
         [Toy.blank64])
  = Raise IndexError.
Proof.
  apply (stepper_negative_budget (Toy.project Toy.steps) 0%nat None (-1) true
           [Toy.blank64] Toy.blank64 (enable_bypass Toy.blank64)
           (Toy.successor_at 0x400004)); reflexivity.
Defined.

(** X13: with budget left, a single constrained successor that may be
    entered (simulated procedures allowed, or its address not hooked) is
    followed: the call gives what the Stepper gives when started at that
    successor - its new state, its path - with the budget less one. *)
Theorem stepper_follows_successor
    (project : Project) (state : loc) (path : option Path) (max_steps : Z)
    (allow_simprocedures : bool) (h : Heap) (st pst : SimState)
    (successor : Successor) :
  h !! state = Some st ->
  error (stepped_path project state path st) = None ->
  <[ state := enable_bypass st ]> h
    !! path_state (stepped_path project state path st) = Some pst ->
  step project (stepped_path project state path st) pst = Stepped [successor] [] ->
  0 < max_steps ->
  allow_simprocedures = true \/ is_hooked project (successor_addr successor) = false ->
  step_to_unconstrained_successor project state path max_steps allow_simprocedures h
  = step_to_unconstrained_successor project (length h)
      (Some (mkPath (length h) (successor_addr successor) (successor_error successor)))
      (max_steps - 1) allow_simprocedures
      (<[ state := enable_bypass st ]> h ++ [successor_state successor]).
Proof.
  intros Hst Herr Hpst Hstep Hpos Henter. unfold step_to_unconstrained_successor.
  replace (Z.to_nat max_steps) with (S (Z.to_nat (max_steps - 1))) by lia.
  rewrite (stepper_unfold project state path max_steps allow_simprocedures h st Hst).
  assert (Hbody :
    stepper_body
      (step_to_unconstrained_successor_rec (Z.to_nat (max_steps - 1)) project)
      project state path max_steps allow_simprocedures
      (<[ state := enable_bypass st ]> h)
    = step_to_unconstrained_successor_rec (Z.to_nat (max_steps - 1)) project
        (length h)
        (Some (mkPath (length h) (successor_addr successor)
                 (successor_error successor)))
        (max_steps - 1) allow_simprocedures
        (<[ state := enable_bypass st ]> h ++ [successor_state successor])).
  { rewrite (stepper_body_single _ project state path max_steps allow_simprocedures
               h st pst successor Hst Herr Hpst Hstep).
    apply Z.ltb_lt in Hpos. rewrite Hpos.
    by replace (negb allow_simprocedures
                && is_hooked project (successor_addr successor))
      with false by (destruct Henter as [-> | ->]; [done|by rewrite andb_false_r]). }
  rewrite try_except_id; [done|].
  intros e. rewrite Hbody. apply stepper_rec_not_unsupported.
Qed.

Lemma stepper_follows_successor_witness :
  step_to_unconstrained_successor (Toy.project Toy.steps) 0%nat None 2 false
    [Toy.blank64]
  = step_to_unconstrained_successor (Toy.project Toy.steps) 1%nat
      (Some (mkPath 1%nat 0x400004 None)) 1 false
      [enable_bypass Toy.blank64; Toy.blank64].
Proof.
  apply (stepper_follows_successor (Toy.project Toy.steps) 0%nat None 2 false
           [Toy.blank64] Toy.blank64 (enable_bypass Toy.blank64)
           (Toy.successor_at 0x400004)); try reflexivity. by right.
Defined.

Lemma keeps_stepper_body_fresh n recurse project state path max_steps allow :
  (forall state' path' max_steps' allow',
      (n <= state')%nat ->
      keeps n (recurse state' path' max_steps' allow')
        (fun p => (n <= path_state p)%nat)) ->
  keeps n (stepper_body recurse project state path max_steps allow)
    (fun p => (n <= path_state p)%nat).
Proof.
  intros Hrec. unfold stepper_body.
  apply keeps_bind with (R := fun _ => True).
  { destruct path; [by apply keeps_ret|apply keeps_factory_path]. }
  intros p _. destruct (errored p); [apply keeps_raise|].
  eapply keeps_bind; [apply keeps_path_step|]. intros [ps us] [Hps Hus]. cbn [fst snd].
  destruct (negb _); [apply keeps_raise|].
  destruct (_ && _).
  - eapply keeps_bind; [apply keeps_index|]. intros s0 _.
    destruct (_ && _); [apply keeps_raise|].
    eapply keeps_bind; [apply keeps_index|]. intros s0' Hs0.
    eapply keeps_bind; [apply keeps_index|]. intros path0 _.
    apply Hrec. rewrite Forall_forall in Hps. by apply Hps.
  - destruct (_ && _); [apply keeps_raise|].
    eapply keeps_bind; [apply keeps_index|]. intros p' Hp'.
    apply keeps_ret. rewrite Forall_forall in Hus. by apply Hus.
Qed.

Lemma keeps_stepper_rec_fresh n depth project state path max_steps allow :
  (n <= state)%nat ->
  keeps n (step_to_unconstrained_successor_rec depth project state path max_steps allow)
    (fun p => (n <= path_state p)%nat).
Proof.
  revert state path max_steps allow.
  induction depth as [|depth IH]; intros state path max_steps allow Hstate;
    cbn [step_to_unconstrained_successor_rec];
    (apply keeps_try_except; [|apply keeps_raise]);
    (eapply keeps_bind; [by apply keeps_modify|]); intros _ _;
    apply keeps_stepper_body_fresh.
  - intros. apply keeps_raise.
  - intros. by apply IH.
Qed.

(** X14: the path a successful call returns is at a state object that did
    not exist when the Stepper was called; in particular it is never at the
    caller's state. *)
Theorem stepper_returns_new_state
    (project : Project) (state : loc) (path : option Path) (max_steps : Z)
    (allow_simprocedures : bool) (h : Heap) (p : Path) :
  fst (step_to_unconstrained_successor project state path max_steps
         allow_simprocedures h) = Ok p ->
  (length h <= path_state p)%nat.
Proof.
  intros Hres. unfold step_to_unconstrained_successor in Hres.
  destruct (h !! state) as [st|] eqn:Hst.
  - rewrite (stepper_unfold project state path max_steps allow_simprocedures h st Hst)
      in Hres.
    unfold try_except in Hres.
    match type of Hres with
    | context [stepper_body ?r _ _ _ _ _ _] => set (recurse := r) in Hres
    end.
    assert (Hrec : forall state' path' max_steps' allow',
               (length h <= state')%nat ->
               keeps (length h) (recurse state' path' max_steps' allow')
                 (fun p => (length h <= path_state p)%nat)).
    { subst recurse. destruct (Z.to_nat max_steps); intros;
        [apply keeps_raise|by apply keeps_stepper_rec_fresh]. }
    destruct (keeps_stepper_body_fresh (length h) recurse project state path
                max_steps allow_simprocedures Hrec
                (<[ state := enable_bypass st ]> h)) as (_ & _ & HQ).
    { by rewrite length_insert. }
    destruct (stepper_body recurse project state path max_steps
                allow_simprocedures (<[ state := enable_bypass st ]> h))
      as [[p'|e] h2]; cbn in *.
    + by injection Hres as ->.
    + by destruct (is_UnsupportedSyscallError e).
  - exfalso. destruct (Z.to_nat max_steps);
      cbn [step_to_unconstrained_successor_rec] in Hres;
      unfold try_except, bind, modify in Hres; rewrite Hst in Hres; done.
Qed.

Lemma stepper_returns_new_state_witness :
  fst (step_to_unconstrained_successor (Toy.project Toy.steps) 0%nat None 2 false
         [Toy.blank64]) = Ok (mkPath 2%nat 0 None) /\
  (length [Toy.blank64] <= 2)%nat.
Proof.
  split; [vm_compute; reflexivity|].
  apply (stepper_returns_new_state (Toy.project Toy.steps) 0%nat None 2 false
           [Toy.blank64] (mkPath 2%nat 0 None)).
  vm_compute; reflexivity.
Defined.

(** ** Controllability Prober: what it returns *)

Lemma keeps_probe_registers_sublist n se test_state ast test_val reg_deps todo
    controllers :
  keeps n (probe_registers se test_state ast test_val reg_deps todo controllers)
    (fun l => exists l', l = controllers ++ l' /\ sublist l' todo).
Proof.
  revert controllers.
  induction todo as [|reg rest IH]; intros controllers; cbn [probe_registers].
  - apply keeps_ret. exists []. by rewrite app_nil_r.
  - eapply keeps_bind; [apply keeps_copy|]. intros cc Hcc.
    eapply keeps_bind; [by apply keeps_pin_registers|]. intros _ _.
    eapply keeps_bind; [apply keeps_unconstrained_check|]. intros free _.
    eapply keeps_weaken; [apply IH|]. cbn beta.
    intros l (l' & -> & Hsub). destruct free.
    + exists (reg :: l'). split; [by rewrite <- app_assoc|by apply sublist_skip].
    + exists l'. split; [done|by apply sublist_cons].
Qed.

(** X15: the controllers come in the order of the dependency collection and
    each of its entries is reported at most once: the returned list is a
    sublist of [reg_deps]. *)
Theorem get_ast_controllers_sublist
    (se : Solver) (test_state : loc) (ast : Ast) (reg_deps : list string)
    (h : Heap) (controllers : list string) :
  fst (get_ast_controllers se test_state ast reg_deps h) = Ok controllers ->
  sublist controllers reg_deps.
Proof.
  intros Hres.
  assert (Hkeeps : keeps 0 (get_ast_controllers se test_state ast reg_deps)
                     (fun l => sublist l reg_deps)).
  { unfold get_ast_controllers.
    eapply keeps_bind; [apply keeps_deref|]. intros st _.
    destruct (negb (symbolic ast)); [apply keeps_ret; apply sublist_nil_l|].
    eapply keeps_bind; [apply keeps_copy|]. intros cc Hcc.
    eapply keeps_bind; [by apply keeps_pin_registers|]. intros _ _.
    eapply keeps_bind; [apply keeps_any_n_int|]. intros vals _.
    destruct (1 <? len vals); [apply keeps_ret; apply sublist_nil_l|].
    eapply keeps_weaken; [apply keeps_probe_registers_sublist|]. cbn beta.
    by intros l (l' & -> & Hsub). }
  destruct (Hkeeps h) as (_ & _ & HQ); [lia|].
  change (get_ast_controllers se test_state ast reg_deps h).1
    with (fst (get_ast_controllers se test_state ast reg_deps h)) in HQ.
  by rewrite Hres in HQ.
Qed.

Lemma get_ast_controllers_sublist_witness :
  fst (get_ast_controllers Toy.solver 0%nat (BVS "sreg_rbx-_8_64" 64)
         ["rax"; "rbx"] [Toy.symbolic64]) = Ok ["rbx"] /\
  sublist ["rbx"] ["rax"; "rbx"].
Proof.
  split; [vm_compute; reflexivity|].
  apply (get_ast_controllers_sublist Toy.solver 0%nat (BVS "sreg_rbx-_8_64" 64)
           ["rax"; "rbx"] [Toy.symbolic64] ["rbx"]).
  vm_compute; reflexivity.
Defined.

(** X16: on a symbolic expression whose values the solver lists at most one
    of once every symbolic dependency register is pinned, the result is
    [reg_deps] filtered by the heuristic: a register is reported exactly
    when [unconstrained_check] succeeds on the fork in which all the others
    are pinned and it is left free. The call adds one fork for the guard and
    one per dependency register to the heap, and changes nothing else. *)
Theorem get_ast_controllers_filter
    (se : Solver) (test_state : loc) (ast : Ast) (reg_deps : list string)
    (h : Heap) (st : SimState) :
  h !! test_state = Some st ->
  Forall (fun reg => is_Some (registers st !! reg)) reg_deps ->
  symbolic ast = true ->
  let test_val := 0x4141414141414141 mod (2 * 2 ^ Z.of_N (bits (state_arch st))) in
  len (se_any_n_int se (pinned st test_val reg_deps) ast 2) <= 1 ->
  get_ast_controllers se test_state ast reg_deps h
  = (Ok (filter (fun reg => passes_check se (pinned_but st test_val reg_deps reg) ast
                            = true) reg_deps),
     h ++ [pinned st test_val reg_deps]
       ++ (pinned_but st test_val reg_deps <$> reg_deps)).
Proof.
  intros Hst Hall Hsym test_val Hfew. unfold get_ast_controllers.
  rewrite (bind_Ok _ _ _ _ _ (deref_run _ _ _ Hst)), sentinel_eq, Hsym.
  cbn [negb]. fold test_val.
  rewrite (bind_Ok _ _ _ _ _ (copy_run _ _ _ Hst)).
  rewrite (bind_Ok _ _ _ _ _ (pin_registers_copy_run test_val reg_deps h st Hall)).
  unfold any_n_int.
  rewrite (bind_Ok _ _ (h ++ [pinned st test_val reg_deps])
             (se_any_n_int se (pinned st test_val reg_deps) ast 2)
             (h ++ [pinned st test_val reg_deps])).
  2: { erewrite bind_Ok; [done|]. apply deref_run. by apply list_lookup_middle. }
  replace (1 <? len (se_any_n_int se (pinned st test_val reg_deps) ast 2))
    with false by (symmetry; apply Z.ltb_ge; lia).
  rewrite (probe_registers_run se test_state ast test_val reg_deps st)
    by (done || by apply lookup_app_l_Some).
  by rewrite <- app_assoc.
Qed.

Lemma get_ast_controllers_filter_witness :
  get_ast_controllers Toy.solver 0%nat (BVS "sreg_rax-_7_64" 64) ["rax"; "rbx"]
    [Toy.symbolic64]
  = (Ok ["rax"],
     [Toy.symbolic64;
      pinned Toy.symbolic64 0x4141414141414141 ["rax"; "rbx"];
      pinned Toy.symbolic64 0x4141414141414141 ["rbx"];
      pinned Toy.symbolic64 0x4141414141414141 ["rax"]]).
Proof.
  assert (Hregs : Forall (fun reg => is_Some (registers Toy.symbolic64 !! reg))
                    ["rax"; "rbx"]).
  { repeat constructor; vm_compute; eauto. }
  rewrite (get_ast_controllers_filter Toy.solver 0%nat (BVS "sreg_rax-_7_64" 64)
             ["rax"; "rbx"] [Toy.symbolic64] Toy.symbolic64 eq_refl Hregs eq_refl).
  - vm_compute. reflexivity.
  - vm_compute. discriminate.
Defined.



(** X18: with an empty dependency collection the result is the empty list,
    for every expression and whatever the solver answers. *)
Theorem get_ast_controllers_no_deps
    (se : Solver) (test_state : loc) (ast : Ast) (h : Heap) (st : SimState) :
  h !! test_state = Some st ->
  fst (get_ast_controllers se test_state ast [] h) = Ok [].
Proof.
  intros Hst. unfold get_ast_controllers.
  rewrite (bind_Ok _ _ _ _ _ (deref_run _ _ _ Hst)).
  destruct (negb (symbolic ast)); [done|].
  rewrite (bind_Ok _ _ _ _ _ (copy_run _ _ _ Hst)).
  cbn [pin_registers]. rewrite bind_ret_run. unfold any_n_int.
  erewrite bind_Ok.
  2: { erewrite bind_Ok; [done|]. apply deref_run. by apply list_lookup_middle. }
  by destruct (1 <? _).
Qed.

Lemma get_ast_controllers_no_deps_witness :
  fst (get_ast_controllers Toy.solver 0%nat (BVS "symbolic_stack_3_12800" 64) []
         [Toy.symbolic64]) = Ok [].
Proof.
  apply (get_ast_controllers_no_deps Toy.solver 0%nat
           (BVS "symbolic_stack_3_12800" 64) [Toy.symbolic64] Toy.symbolic64).
  reflexivity.
Defined.

(** ** Unconstrained-Value Heuristic: the probe values *)

(** X19: an expression of at least one bit for which the solver accepts at
    most one value fails the check: the first two probes, 0 and [2^n - 1],
    differ. *)
Theorem unconstrained_check_single_value
    (se : Solver) (state : loc) (ast : Ast) (h : Heap) (st : SimState) :
  h !! state = Some st ->
  (0 < ast_size ast)%N ->
  (forall v1 v2, se_satisfiable se st [CEq ast v1] = true ->
                 se_satisfiable se st [CEq ast v2] = true -> v1 = v2) ->
  unconstrained_check se state ast h = (Ok false, h).
Proof.
  intros Hst Hsize Hone. rewrite (unconstrained_check_run _ _ _ _ _ Hst).
  do 2 f_equal. unfold probe_values. cbn [forallb].
  destruct (se_satisfiable se st [CEq ast 0]) eqn:H0; [|done].
  destruct (se_satisfiable se st [CEq ast (2 ^ Z.of_N (ast_size ast) - 1)]) eqn:H1;
    [|done].
  exfalso. pose proof (Hone _ _ H0 H1) as Heq.
  assert (2 ^ 1 <= 2 ^ Z.of_N (ast_size ast)) by (apply Z.pow_le_mono_r; lia).
  lia.
Qed.

Lemma unconstrained_check_single_value_witness :
  unconstrained_check (solver_of_values [5]) 0%nat (BVS "sreg_rax-_7_64" 64)
    [Toy.symbolic64]
  = (Ok false, [Toy.symbolic64]).
Proof.
  apply (unconstrained_check_single_value (solver_of_values [5]) 0%nat
           (BVS "sreg_rax-_7_64" 64) [Toy.symbolic64] Toy.symbolic64).
  - reflexivity.
  - reflexivity.
  - intros v1 v2 H1 H2. cbn in H1, H2.
    rewrite andb_true_r in H1, H2.
    apply bool_decide_eq_true in H1, H2.
    apply list_elem_of_singleton in H1, H2. congruence.
Defined.

(** X20: every probe value fits the width of the expression: 0, [2^n - 1]
    and the three reduced constants all lie in [0, 2^n), for every width,
    zero included; and the three literals always parse. *)
Theorem probe_values_fit_width (size : N) :
  0 <= test_val_0 < 2 ^ Z.of_N size /\
  0 <= test_val_1 size < 2 ^ Z.of_N size /\
  exists v2 v3 v4,
    test_val_2 size = Some v2 /\ test_val_3 size = Some v3 /\
    test_val_4 size = Some v4 /\
    0 <= v2 < 2 ^ Z.of_N size /\ 0 <= v3 < 2 ^ Z.of_N size /\
    0 <= v4 < 2 ^ Z.of_N size.
Proof.
  assert (Hpos : 0 < 2 ^ Z.of_N size) by (apply Z.pow_pos_nonneg; lia).
  rewrite test_val_1_eq, test_val_2_eq, test_val_3_eq, test_val_4_eq.
  unfold test_val_0. split_and!; [lia..|].
  do 3 eexists. split_and!; try reflexivity; try (apply Z.mod_pos_bound; lia).
  all: apply Z.mod_pos_bound; lia.
Qed.

Lemma land_0xAAAA_0x5555 n :
  0 <= n ->
  Z.land (0xAAAAAAAAAAAAAAAA mod 2 ^ n) (0x5555555555555555 mod 2 ^ n) = 0.
Proof.
  intros Hn. apply Z.bits_inj'. intros i Hi.
  rewrite Z.land_spec, !testbit_mod_pow2, bits_of_0xAAAA, bits_of_0x5555,
    Z.bits_0 by lia.
  rewrite <- Z.negb_odd. by destruct (Z.odd i), (i <? 64), (i <? n).
Qed.

Lemma lor_0xAAAA_0x5555 n :
  0 <= n <= 64 ->
  Z.lor (0xAAAAAAAAAAAAAAAA mod 2 ^ n) (0x5555555555555555 mod 2 ^ n) = Z.ones n.
Proof.
  intros Hn. apply Z.bits_inj'. intros i Hi.
  rewrite Z.lor_spec, !testbit_mod_pow2, bits_of_0xAAAA, bits_of_0x5555 by lia.
  rewrite <- Z.negb_odd.
  destruct (Z.ltb_spec i n) as [Hlt|Hge].
  - rewrite Z.ones_spec_low by lia.
    replace (i <? 64) with true by (symmetry; apply Z.ltb_lt; lia).
    by destruct (Z.odd i).
  - rewrite Z.ones_spec_high by lia. by rewrite !andb_false_r.
Qed.

(** X21: up to width 64 the third and fourth probe values are complements
    of each other within the width: they share no bit and add up to the
    second probe, [2^n - 1]. *)
Theorem probe_values_complementary (size : N) (v2 v3 : Z) :
  (size <= 64)%N ->
  test_val_2 size = Some v2 ->
  test_val_3 size = Some v3 ->
  Z.land v2 v3 = 0 /\ v2 + v3 = test_val_1 size.
Proof.
  intros Hsize. rewrite test_val_2_eq, test_val_3_eq, test_val_1_eq.
  intros [= <-] [= <-].
  pose proof (land_0xAAAA_0x5555 (Z.of_N size) ltac:(lia)) as Hland.
  split; [done|].
  rewrite Z.add_nocarry_lxor, Z.lxor_lor by done.
  rewrite lor_0xAAAA_0x5555 by lia. rewrite Z.ones_equiv. lia.
Qed.

Lemma probe_values_complementary_witness :
  Z.land 0xAA 0x55 = 0 /\ 0xAA + 0x55 = test_val_1 8.
Proof.
  apply (probe_values_complementary 8 0xAA 0x55).
  - lia.
  - vm_compute. reflexivity.
  - vm_compute. reflexivity.
Defined.

(** Beyond width 64 they no longer are: at width 128 the two patterns add up
    to [2^64 - 1] only. *)
Example probe_values_width_128 :
  test_val_2 128 = Some 0xAAAAAAAAAAAAAAAA /\
  test_val_3 128 = Some 0x5555555555555555 /\
  0xAAAAAAAAAAAAAAAA + 0x5555555555555555 = 2 ^ 64 - 1.
Proof. split_and!; vm_compute; reflexivity. Qed.

(** ** Dependency Extractor: order and composition *)

Lemma tagged_dec var : Decision (tagged var).
Proof. unfold tagged. apply _. Qed.

(** The two ways the loop can end. *)
Lemma get_ast_dependency_loop_cases vars deps :
  (Forall tagged vars /\
   get_ast_dependency_loop vars deps
   = PySet (deps ∪ list_to_set (decode_tag <$> vars))) \/
  (Exists (fun var => ~ tagged var) vars /\
   get_ast_dependency_loop vars deps = PyList []).
Proof.
  destruct (Forall_Exists_dec tagged (fun var => ~ tagged var)
              (fun var => match tagged_dec var with
                          | left H => left H
                          | right H => right H
                          end) vars) as [Hall|Hex].
  - left. split; [done|by apply get_ast_dependency_loop_tagged].
  - right. split; [done|by apply get_ast_dependency_loop_untagged].
Qed.

(** X22: the result does not depend on the order in which the set of root
    names yields its elements, nor on repetitions: two sequences with the
    same elements give the same result. *)
Theorem get_ast_dependency_loop_order (vars1 vars2 : list string) :
  (forall var, var ∈ vars1 <-> var ∈ vars2) ->
  get_ast_dependency_loop vars1 ∅ = get_ast_dependency_loop vars2 ∅.
Proof.
  intros Hsame.
  destruct (get_ast_dependency_loop_cases vars1 ∅) as [[Hall1 ->]|[Hex1 ->]];
    destruct (get_ast_dependency_loop_cases vars2 ∅) as [[Hall2 ->]|[Hex2 ->]].
  - f_equal. apply set_eq. intros reg.
    rewrite !elem_of_union, !elem_of_list_to_set, !list_elem_of_fmap.
    split; (intros [?|(var & -> & Hvar)]; [set_solver|right; exists var;
            split; [done|by apply Hsame]]).
  - exfalso. apply Exists_exists in Hex2 as (var & Hvar & Hun).
    rewrite Forall_forall in Hall1. apply Hun, Hall1. by apply Hsame.
  - exfalso. apply Exists_exists in Hex1 as (var & Hvar & Hun).
    rewrite Forall_forall in Hall2. apply Hun, Hall2. by apply Hsame.
  - done.
Qed.

Lemma get_ast_dependency_loop_order_witness :
  get_ast_dependency_loop ["sreg_rax-_7_64"; "sreg_rbx-_8_64"] ∅
  = get_ast_dependency_loop ["sreg_rbx-_8_64"; "sreg_rax-_7_64"; "sreg_rbx-_8_64"] ∅.
Proof.
  apply (get_ast_dependency_loop_order
           ["sreg_rax-_7_64"; "sreg_rbx-_8_64"]
           ["sreg_rbx-_8_64"; "sreg_rax-_7_64"; "sreg_rbx-_8_64"]).
  intros var. rewrite !elem_of_cons, !elem_of_nil. tauto.
Defined.

(** X23: the loop is compatible with the union of root-name collections.
    When the names of [vars] are those of [vars1] and of [vars2] together,
    the result for [vars] is the union of the two results if both are sets,
    and the empty list as soon as one of them is the empty list for an
    untagged name. *)
Theorem get_ast_dependency_loop_union (vars vars1 vars2 : list string) :
  (forall var, var ∈ vars <-> var ∈ vars1 \/ var ∈ vars2) ->
  get_ast_dependency_loop vars ∅
  = match get_ast_dependency_loop vars1 ∅, get_ast_dependency_loop vars2 ∅ with
    | PySet deps1, PySet deps2 => PySet (deps1 ∪ deps2)
    | _, _ => PyList []
    end.
Proof.
  intros Hunion.
  destruct (get_ast_dependency_loop_cases vars1 ∅) as [[H1 E1]|[H1 E1]];
    destruct (get_ast_dependency_loop_cases vars2 ∅) as [[H2 E2]|[H2 E2]];
    destruct (get_ast_dependency_loop_cases vars ∅) as [[H E]|[H E]];
    rewrite E, E1, ?E2; try done.
  - f_equal. apply set_eq. intros reg.
    rewrite !elem_of_union, !elem_of_list_to_set, !list_elem_of_fmap.
    split.
    + intros [?|(var & -> & Hvar)]; [set_solver|].
      apply Hunion in Hvar as [Hvar|Hvar]; [left|right]; right; by exists var.
    + intros [[?|(var & -> & Hvar)]|[?|(var & -> & Hvar)]]; try set_solver;
        right; exists var; (split; [done|]); apply Hunion; tauto.
  - exfalso. apply Exists_exists in H as (var & Hvar & Hun).
    rewrite Forall_forall in H1, H2.
    apply Hunion in Hvar as [Hvar|Hvar]; [by apply Hun, H1|by apply Hun, H2].
  - exfalso. apply Exists_exists in H2 as (var & Hvar & Hun).
    rewrite Forall_forall in H. apply Hun, H, Hunion. tauto.
  - exfalso. apply Exists_exists in H1 as (var & Hvar & Hun).
    rewrite Forall_forall in H. apply Hun, H, Hunion. tauto.
  - exfalso. apply Exists_exists in H1 as (var & Hvar & Hun).
    rewrite Forall_forall in H. apply Hun, H, Hunion. tauto.
Qed.

Lemma get_ast_dependency_loop_union_witness :
  get_ast_dependency_loop ["sreg_rbx-_8_64"; "sreg_rax-_7_64"] ∅
  = match get_ast_dependency_loop ["sreg_rax-_7_64"] ∅,
          get_ast_dependency_loop ["sreg_rbx-_8_64"; "sreg_rax-_7_64"] ∅ with
    | PySet deps1, PySet deps2 => PySet (deps1 ∪ deps2)
    | _, _ => PyList []
    end.
Proof.
  apply (get_ast_dependency_loop_union
           ["sreg_rbx-_8_64"; "sreg_rax-_7_64"] ["sreg_rax-_7_64"]
           ["sreg_rbx-_8_64"; "sreg_rax-_7_64"]).
  intros var. rewrite !elem_of_cons, !elem_of_nil. tauto.
Defined.

(** ** From symbolization to dependencies *)

(** X24: the builders and the extractor fit together. In the state
    [make_symbolic_state] returns, the value of a listed register (other
    than the stack and frame pointers, and with no dash in its name) is
    symbolic and [get_ast_dependency] finds exactly that register in it. *)
Theorem symbolized_register_dependency
    (project : Project) (reg_list : list string) (stack_length : N)
    (h : Heap) (sp : Ast) (reg : string) :
  registers (blank project) !! "sp" = Some sp ->
  is_Some (registers (blank project) !! "bp") ->
  Forall (fun reg => is_Some (registers (blank project) !! reg)) reg_list ->
  reg ∈ reg_list -> reg <> "sp" -> reg <> "bp" ->
  has_char "-" reg = false ->
  exists entry sym v,
    make_symbolic_state project reg_list stack_length h
    = (Ok (S (length h)), h ++ [entry; sym]) /\
    registers sym !! reg = Some v /\
    symbolic v = true /\
    get_ast_dependency v = PySet {[ reg ]}.
Proof.
  intros Hsp Hbp Hall Hreg Hne_sp Hne_bp Hdash.
  destruct (make_symbolic_state_run project reg_list stack_length h sp Hsp Hbp Hall)
    as (entry & sym & _ & Hrun & Hregs & _).
  exists entry, sym, (BVS (sreg_name reg "") (bits (project_arch project))).
  split_and!; [done| |done|].
  - rewrite Hregs, decide_False by (intros [?|?]; done).
    by rewrite decide_True.
  - by rewrite get_ast_dependency_sreg, split_head_no_dash.
Qed.

Lemma symbolized_register_dependency_witness :
  exists entry sym v,
    make_symbolic_state (Toy.project Toy.steps) ["rax"; "rbx"] 200 []
    = (Ok 1%nat, [entry; sym]) /\
    registers sym !! "rbx" = Some v /\
    symbolic v = true /\
    get_ast_dependency v = PySet {[ "rbx" ]}.
Proof.
  apply (symbolized_register_dependency (Toy.project Toy.steps) ["rax"; "rbx"] 200 []
           (BVV 0x7ffffffffff0000 64) "rbx").
  - reflexivity.
  - by eexists.
  - repeat constructor; by eexists.
  - set_solver.
  - done.
  - done.
  - reflexivity.
Defined.
